(** * Settlement engine of the banker-game score sheet

    A shallow embedding of the computed state of [App]: [totals],
    [debtsByRound], [finalSettlement], [settlementByPerson], [ranking],
    of the handlers that edit the roster and the rounds, and of the
    history rows of [exportExcel], followed by the properties of the
    engine.

    Modelling conventions.
    - A JavaScript number is a binary64 double.  Every finite double is a
      whole multiple of 2^-1074, the smallest positive double: [Fin z] is
      the finite double of value z * 2^-1074, so that the whole amount n
      is [ofInt n = Fin (n * 2^1074)].  The three non-finite doubles are
      separate constructors.  A sum or difference is the exact result
      rounded to 53 significant bits, to nearest and ties to even, and it
      overflows to an infinity from 2^1024 - 2^970 on ([round64]).  The
      two zeros are not told apart: the code never divides, and compares
      with [===], [<] and [>] only.
    - [round.values] is a JavaScript object read by key only, or iterated
      where the iteration order cannot be observed: a [gmap string number].
    - [acc] / [totals] is a JavaScript object whose [Object.entries] order
      is observed by the stable sorts of [finalSettlement]: an association
      list in insertion order, updated in place.  Player ids are the
      strings produced by [uid] (hex digits, a dash, hex digits), which
      are neither array indices nor property names of [Object.prototype]. *)

From stdpp Require Import base strings pretty gmap list fin_maps sorting.
From Stdlib Require Import ZArith Lia.

Local Open Scope Z_scope.

(** ** Numbers *)

Inductive number : Type :=
  | Fin (z : Z)
  | PInf
  | NInf
  | NaN.

#[global] Instance number_eq_dec : EqDecision number.
Proof. solve_decision. Defined.

(** [Number.isFinite] *)
Definition isFinite (v : number) : bool :=
  match v with Fin _ => true | _ => false end.

(** The number of units nearest to [a >= 0] among those with at most 53
    significant bits, ties going to the even significand *)
Definition nearest64 (a : Z) : Z :=
  if decide (a < 2 ^ 53) then a
  else
    let e := Z.log2 a - 52 in
    let q := a / 2 ^ e in
    let r := a mod 2 ^ e in
    let half := 2 ^ (e - 1) in
    if decide (r < half) then q * 2 ^ e
    else if decide (r = half ∧ Z.even q = true) then q * 2 ^ e
    else (q + 1) * 2 ^ e.

(** The least magnitude that rounds to an infinity: 2^1024 - 2^970, in
    units of 2^-1074 *)
Definition overflowAt : Z := 2 ^ 2098 - 2 ^ 2044.

(** The double nearest to [z] units *)
Definition round64 (z : Z) : number :=
  if decide (overflowAt ≤ Z.abs z) then (if decide (0 < z) then PInf else NInf)
  else Fin (Z.sgn z * nearest64 (Z.abs z)).

(** [a + b]: the double nearest to the exact sum; adding zero gives back
    the other operand *)
Definition num_add (a b : number) : number :=
  match a, b with
  | Fin x, Fin y =>
      if decide (y = 0) then Fin x
      else if decide (x = 0) then Fin y
      else round64 (x + y)
  | NaN, _ | _, NaN => NaN
  | PInf, NInf | NInf, PInf => NaN
  | PInf, _ | _, PInf => PInf
  | NInf, _ | _, NInf => NInf
  end.

(** unary [-a] *)
Definition num_neg (a : number) : number :=
  match a with
  | Fin x => Fin (- x)
  | PInf => NInf
  | NInf => PInf
  | NaN => NaN
  end.

(** [a - b] *)
Definition num_sub (a b : number) : number := num_add a (num_neg b).

(** [v > 0] and [v < 0] *)
Definition num_pos (v : number) : bool :=
  match v with Fin z => bool_decide (0 < z) | PInf => true | _ => false end.
Definition num_neg0 (v : number) : bool :=
  match v with Fin z => bool_decide (z < 0) | NInf => true | _ => false end.

(** [Math.min(a, b)] *)
Definition num_min (a b : number) : number :=
  match a, b with
  | NaN, _ | _, NaN => NaN
  | NInf, _ | _, NInf => NInf
  | PInf, v | v, PInf => v
  | Fin x, Fin y => Fin (Z.min x y)
  end.

(** [Math.abs(v)] *)
Definition num_abs (v : number) : number :=
  match v with
  | Fin z => Fin (Z.abs z)
  | PInf | NInf => PInf
  | NaN => NaN
  end.

(** [Number.isFinite(v) ? v : 0], whose result is always finite: the
    units it holds *)
Definition finiteOrZero (v : number) : Z :=
  match v with Fin z => z | _ => 0 end.

(** [o ?? 0] for a property read.  (A [null] entry, which is all that JSON
    persistence keeps of a non-finite number, reads as 0 here and fails
    [Number.isFinite]: it behaves as a missing entry throughout.) *)
Definition orZero (o : option number) : number := default (Fin 0) o.

(** [reduce((s, x) => s + x, 0)] *)
Definition num_sum (l : list number) : number := fold_left num_add l (Fin 0).

(** The double of a whole amount *)
Definition ofInt (n : Z) : number := Fin (n * 2 ^ 1074).

(** ** Data model *)

Module Player.
Record t : Type := mk { id : string; name : string }.
End Player.

Module GameRound.
Record t : Type := mk { id : string; bankerId : string; values : gmap string number }.
End GameRound.

Module DebtItem.
Record t : Type := mk {
  roundIndex : nat;
  bankerId : string;
  fromId : string;
  toId : string;
  amount : number
}.
End DebtItem.

(** The elements of [debtors] and [creditors]: [{ id, amount }] *)
Module Party.
Record t : Type := mk { id : string; amount : number }.
End Party.

(** The elements of [transactions]: [{ fromId, toId, amount }] *)
Module Transaction.
Record t : Type := mk { fromId : string; toId : string; amount : number }.
End Transaction.

(** The elements of [settlementByPerson] *)
Module PersonSettlement.
Record t : Type := mk { personId : string; pay : number; receive : number; net : number }.
End PersonSettlement.

(** ** Insertion-ordered objects ([Record<string, number>])

    An object with the keys that the application writes: ids made by
    [uid].  For such keys the own properties are enumerated in insertion
    order, and a key that was never written reads as [undefined]. *)

(** [o[k]] *)
Fixpoint obj_get {V} (k : string) (o : list (string * V)) : option V :=
  match o with
  | [] => None
  | (k', v) :: o' => if decide (k' = k) then Some v else obj_get k o'
  end.

(** [o[k] = v]: an existing key keeps its place, a new key goes last *)
Fixpoint obj_set {V} (k : string) (v : V) (o : list (string * V)) : list (string * V) :=
  match o with
  | [] => [(k, v)]
  | (k', v') :: o' =>
      if decide (k' = k) then (k, v) :: o' else (k', v') :: obj_set k v o'
  end.

(** ** Stable sort with a numeric comparator ([Array.prototype.sort]) *)

Section Sort.
Context {A : Type} (cmp : A → A → number).

(** [x] stood before every element of [l]: it moves behind the elements
    it compares greater than ([cmp x y > 0]; a [NaN] result counts as 0). *)
Fixpoint sort_insert (x : A) (l : list A) : list A :=
  match l with
  | [] => [x]
  | y :: l' => if num_pos (cmp x y) then y :: sort_insert x l' else x :: y :: l'
  end.

Definition array_sort (l : list A) : list A := foldr sort_insert [] l.
End Sort.

(** ** [totals] *)

(** [players.forEach((p) => (acc[p.id] = 0))] *)
Definition initAcc (players : list Player.t) : list (string * number) :=
  fold_left (λ acc p, obj_set (Player.id p) (Fin 0) acc) players [].

(** [players.filter((p) => p.id !== round.bankerId)
            .reduce((s, p) => s + (round.values[p.id] ?? 0), 0)] *)
Definition sumParticipants (players : list Player.t) (round : GameRound.t) : number :=
  fold_left
    (λ s p, num_add s (orZero (GameRound.values round !! Player.id p)))
    (filter (λ p, Player.id p ≠ GameRound.bankerId round) players)
    (Fin 0).

(** [{ ...round.values, [round.bankerId]: -sumParticipants }] *)
Definition finalValues (players : list Player.t) (round : GameRound.t) : gmap string number :=
  <[GameRound.bankerId round := num_neg (sumParticipants players round)]>
    (GameRound.values round).

(** [if (acc[pid] !== undefined) acc[pid] += Number.isFinite(v) ? v : 0] *)
Definition bump (pid : string) (v : number) (acc : list (string * number))
    : list (string * number) :=
  match obj_get pid acc with
  | Some a => obj_set pid (num_add a (Fin (finiteOrZero v))) acc
  | None => acc
  end.

(** The body of [rounds.forEach] in [totals].  The entries of
    [finalValues] have distinct keys and each entry touches only its own
    key of [acc], so the order of the [for ... of] loop is immaterial. *)
Definition totalsRound (players : list Player.t) (acc : list (string * number))
    (round : GameRound.t) : list (string * number) :=
  if decide (GameRound.bankerId round = EmptyString) then acc
  else map_fold bump acc (finalValues players round).

Definition totals (players : list Player.t) (rounds : list GameRound.t)
    : list (string * number) :=
  fold_left (totalsRound players) rounds (initAcc players).

(** [totals[id] ?? 0], as the table footer and the exports read a balance *)
Definition balanceOf (acc : list (string * number)) (k : string) : number :=
  default (Fin 0) (obj_get k acc).

(** ** [debtsByRound] *)

(** The body of [for (const p of players)]: at most one [items.push]. *)
Definition debtsPlayer (idx : nat) (round : GameRound.t)
    (items : list DebtItem.t) (p : Player.t) : list DebtItem.t :=
  let bankerId := GameRound.bankerId round in
  if decide (Player.id p = bankerId) then items
  else
    let v := orZero (GameRound.values round !! Player.id p) in
    if negb (isFinite v) || bool_decide (v = Fin 0) then items
    else if num_pos v then
      items ++ [DebtItem.mk (idx + 1)%nat bankerId bankerId (Player.id p) v]
    else
      items ++ [DebtItem.mk (idx + 1)%nat bankerId (Player.id p) bankerId (num_abs v)].

(** The body of [rounds.forEach((round, idx) => ...)] *)
Definition debtsRound (players : list Player.t) (items : list DebtItem.t)
    (round : GameRound.t) (idx : nat) : list DebtItem.t :=
  if decide (GameRound.bankerId round = EmptyString) then items
  else fold_left (debtsPlayer idx round) players items.

(** [l.forEach((x, idx) => ...)] threading a state, from index [idx] on *)
Fixpoint forEachIdx {A St : Type} (f : St → A → nat → St) (l : list A) (idx : nat)
    (s : St) : St :=
  match l with
  | [] => s
  | x :: l' => forEachIdx f l' (S idx) (f s x idx)
  end.

Definition debtsByRound (players : list Player.t) (rounds : list GameRound.t)
    : list DebtItem.t :=
  forEachIdx (debtsRound players) rounds 0%nat [].

(** ** [finalSettlement] *)

Definition byAmountAsc (a b : Party.t) : number :=
  num_sub (Party.amount a) (Party.amount b).
Definition byAmountDesc (a b : Transaction.t) : number :=
  num_sub (Transaction.amount b) (Transaction.amount a).

Definition debtorsOf (balances : list (string * number)) : list Party.t :=
  array_sort byAmountAsc
    ((λ e, Party.mk e.1 (num_neg e.2)) <$> filter (λ e, num_neg0 e.2 = true) balances).

Definition creditorsOf (balances : list (string * number)) : list Party.t :=
  array_sort byAmountAsc
    ((λ e, Party.mk e.1 e.2) <$> filter (λ e, num_pos e.2 = true) balances).

(** The [while] loop.  [debtor.amount -= amount] writes through to the
    array element, hence the list updates; the two arrays share no
    element.  One unit of [fuel] is one iteration; [None] is fuel
    exhaustion. *)
Fixpoint settleLoop (fuel : nat) (debtors creditors : list Party.t)
    (debtorIndex creditorIndex : nat) (transactions : list Transaction.t)
    : option (list Transaction.t) :=
  match debtors !! debtorIndex, creditors !! creditorIndex with
  | Some debtor, Some creditor =>
      match fuel with
      | O => None
      | S fuel' =>
          let amount := num_min (Party.amount debtor) (Party.amount creditor) in
          let pushed := num_pos amount in
          let transactions' :=
            if pushed then
              transactions ++ [Transaction.mk (Party.id debtor) (Party.id creditor) amount]
            else transactions in
          let debtor' :=
            if pushed then Party.mk (Party.id debtor) (num_sub (Party.amount debtor) amount)
            else debtor in
          let creditor' :=
            if pushed then
              Party.mk (Party.id creditor) (num_sub (Party.amount creditor) amount)
            else creditor in
          settleLoop fuel'
            (<[debtorIndex := debtor']> debtors)
            (<[creditorIndex := creditor']> creditors)
            (if decide (Party.amount debtor' = Fin 0) then S debtorIndex else debtorIndex)
            (if decide (Party.amount creditor' = Fin 0) then S creditorIndex
             else creditorIndex)
            transactions'
      end
  | _, _ => Some transactions
  end.

Definition finalSettlement (balances : list (string * number))
    : option (list Transaction.t) :=
  let debtors := debtorsOf balances in
  let creditors := creditorsOf balances in
  array_sort byAmountDesc <$>
    settleLoop (length debtors + length creditors) debtors creditors 0 0 [].

(** ** [settlementByPerson] *)

Definition byAbsNetDesc (a b : PersonSettlement.t) : number :=
  num_sub (num_abs (PersonSettlement.net b)) (num_abs (PersonSettlement.net a)).

Definition payOf (settlement : list Transaction.t) (k : string) : number :=
  num_sum (Transaction.amount <$> filter (λ t, Transaction.fromId t = k) settlement).

Definition receiveOf (settlement : list Transaction.t) (k : string) : number :=
  num_sum (Transaction.amount <$> filter (λ t, Transaction.toId t = k) settlement).

Definition personOf (settlement : list Transaction.t) (p : Player.t) : PersonSettlement.t :=
  let pay := payOf settlement (Player.id p) in
  let receive := receiveOf settlement (Player.id p) in
  PersonSettlement.mk (Player.id p) pay receive (num_sub receive pay).

Definition settlementByPerson (players : list Player.t)
    (settlement : list Transaction.t) : list PersonSettlement.t :=
  array_sort byAbsNetDesc (personOf settlement <$> players).
(** ** The state and its [removePlayer] handler *)

Record State : Type := mkState {
  players : list Player.t;
  rounds : list GameRound.t
}.

Definition removeFromRound (id : string) (r : GameRound.t) : GameRound.t :=
  GameRound.mk (GameRound.id r)
    (if decide (GameRound.bankerId r = id) then EmptyString else GameRound.bankerId r)
    (delete id (GameRound.values r)).

Definition removePlayer (id : string) (st : State) : State :=
  mkState (filter (λ p, Player.id p ≠ id) (players st))
          (removeFromRound id <$> rounds st).

(** The derived outputs of a state *)
Definition stTotals (st : State) : list (string * number) := totals (players st) (rounds st).
Definition stDebts (st : State) : list DebtItem.t := debtsByRound (players st) (rounds st).
Definition stSettlement (st : State) : option (list Transaction.t) :=
  finalSettlement (stTotals st).
Definition stSummary (st : State) : option (list PersonSettlement.t) :=
  settlementByPerson (players st) <$> stSettlement st.

(** ** The scenario of three players and one round *)

Definition pA : Player.t := Player.mk "A" "An".
Definition pB : Player.t := Player.mk "B" "Binh".
Definition pC : Player.t := Player.mk "C" "Chi".

Definition round1 : GameRound.t :=
  GameRound.mk "r1" "A" (<["B" := ofInt 50]> (<["C" := ofInt (-20)]> ∅)).

(** Further rounds used as concrete inputs: another banker, a banker who
    is on no roster, an entry that is not a number, and a round without
    banker. *)
Definition round2 : GameRound.t :=
  GameRound.mk "r2" "B" (<["A" := ofInt 10]> (<["C" := ofInt 5]> ∅)).

Definition roundX : GameRound.t :=
  GameRound.mk "r3" "X" (<["A" := ofInt 5]> ∅).

Definition roundNaN : GameRound.t :=
  GameRound.mk "r4" "A" (<["B" := NaN]> (<["C" := ofInt 5]> ∅)).

Definition roundIdle : GameRound.t :=
  GameRound.mk "r5" EmptyString (<["B" := ofInt 7]> ∅).


(** ** Derived notions used in the statements *)

(** The exact sum of a list of integers *)
Definition zsum (l : list Z) : Z := fold_left Z.add l 0.

(** [acc += z] for every [z] of a list in turn, from 0 *)
Definition accumulate (amounts : list Z) : number :=
  fold_left (λ a z, num_add a (Fin z)) amounts (Fin 0).

(** Adding [f k] to the value of every key [k] *)
Definition addAt (f : string → Z) (o : list (string * number)) : list (string * number) :=
  (λ kv, (kv.1, num_add kv.2 (Fin (f kv.1)))) <$> o.

(** What [totals] adds to [acc[k]] for a round with a banker: the entry of
    [finalValues] under [k], passed through [Number.isFinite(v) ? v : 0];
    nothing when [finalValues] has no such entry. *)
Definition normalized (players : list Player.t) (round : GameRound.t) (k : string) : Z :=
  match finalValues players round !! k with
  | Some v => finiteOrZero v
  | None => 0
  end.

(** What [totals] adds to [acc[k]] for any round *)
Definition contribution (players : list Player.t) (round : GameRound.t) (k : string) : Z :=
  if decide (GameRound.bankerId round = EmptyString) then 0
  else normalized players round k.

(** The recorded value of a player as the aggregator counts it *)
Definition recorded (round : GameRound.t) (k : string) : Z :=
  finiteOrZero (orZero (GameRound.values round !! k)).



(** *** Plain keys

    The ids that [uid] produces hold a dash, so that they are neither
    array indices, which [Object.entries] lists first, nor names of
    properties that an empty object inherits. *)
Fixpoint uidLike (s : string) : bool :=
  match s with
  | EmptyString => false
  | String c s' => bool_decide (String c EmptyString = "-") || uidLike s'
  end.

(** A round that [totals] skips, or whose banker and entries are under
    such ids *)
Definition plainRound (round : GameRound.t) : Prop :=
  GameRound.bankerId round = EmptyString
  ∨ (uidLike (GameRound.bankerId round) = true
     ∧ map_Forall (λ k _, uidLike k = true) (GameRound.values round)).

(** Two players and a round under ids of that form *)
Definition pU : Player.t := Player.mk "18f3a-9c1" "Uyen".
Definition pV : Player.t := Player.mk "18f3b-07e" "Vinh".
Definition roundU : GameRound.t :=
  GameRound.mk "18f3c-5d2" "18f3a-9c1" (<["18f3b-07e" := ofInt 10]> ∅).

(** *** The range in which the additions are exact

    Amounts that are whole multiples of a common step of 2^k units add up
    without rounding as long as the sums stay within 2^53 steps.  Whole
    amounts have k = 1074. *)

Definition onGrid (k z : Z) : Prop := z mod 2 ^ k = 0.

#[global] Instance onGrid_dec (k z : Z) : Decision (onGrid k z).
Proof. unfold onGrid. apply _. Defined.

(** The steps that can be told apart: k between 0 and 2044, so that 2^53
    steps stay below the overflow threshold *)
Definition gridStep (k : Z) : Prop := 0 ≤ k ≤ 2044.

#[global] Instance gridStep_dec (k : Z) : Decision (gridStep k).
Proof. unfold gridStep. apply _. Defined.






(** The balance mappings that [finalSettlement] settles exactly: finite
    entries on the grid of step 2^k, of at most 2^53 steps each *)
Definition exactEntry (k : Z) (v : number) : bool :=
  match v with
  | Fin z => bool_decide (onGrid k z) && bool_decide (Z.abs z ≤ 2 ^ (53 + k))
  | _ => false
  end.

Definition exactBalances (k : Z) (balances : list (string * number)) : bool :=
  bool_decide (gridStep k) && forallb (λ e, exactEntry k e.2) balances.

(** A finite entry within the range of the doubles *)
Definition finiteEntry (v : number) : bool :=
  match v with
  | Fin z => bool_decide (Z.abs z < overflowAt)
  | _ => false
  end.

(** [a <= b] *)
Definition num_le (a b : number) : Prop :=
  match a, b with
  | NaN, _ | _, NaN => False
  | NInf, _ | _, PInf => True
  | Fin x, Fin y => x ≤ y
  | _, _ => False
  end.

(** *** The settlement loop

    The [while] loop of [finalSettlement] seen from the current indices:
    the elements before [debtorIndex] and [creditorIndex] are never read
    again, so the loop only depends on the two remaining suffixes. *)
Fixpoint settleRest (fuel : nat) (debtors creditors : list Party.t)
    (transactions : list Transaction.t) : option (list Transaction.t) :=
  match debtors, creditors with
  | debtor :: debtors', creditor :: creditors' =>
      match fuel with
      | O => None
      | S fuel' =>
          let amount := num_min (Party.amount debtor) (Party.amount creditor) in
          let pushed := num_pos amount in
          let transactions' :=
            if pushed then
              transactions ++ [Transaction.mk (Party.id debtor) (Party.id creditor) amount]
            else transactions in
          let debtor' :=
            if pushed then Party.mk (Party.id debtor) (num_sub (Party.amount debtor) amount)
            else debtor in
          let creditor' :=
            if pushed then
              Party.mk (Party.id creditor) (num_sub (Party.amount creditor) amount)
            else creditor in
          settleRest fuel'
            (if decide (Party.amount debtor' = Fin 0) then debtors'
             else debtor' :: debtors')
            (if decide (Party.amount creditor' = Fin 0) then creditors'
             else creditor' :: creditors')
            transactions'
      end
  | _, _ => Some transactions
  end.

(** The units that the parties named [k] hold in a list of parties *)
Definition owed (l : list Party.t) (k : string) : Z :=
  zsum ((λ x, finiteOrZero (Party.amount x)) <$> filter (λ x, Party.id x = k) l).


(** Parties with positive finite amounts within the range of the doubles *)
Definition positive (l : list Party.t) : Prop :=
  Forall (λ x, ∃ z, Party.amount x = Fin z ∧ 0 < z < overflowAt) l.

(** Parties with positive amounts in the exact range of step 2^k *)
Definition exactParties (k : Z) (l : list Party.t) : Prop :=
  Forall (λ x, ∃ z, Party.amount x = Fin z ∧ 0 < z ≤ 2 ^ (53 + k) ∧ onGrid k z) l.

Definition total (l : list Party.t) : Z :=
  zsum ((λ x, finiteOrZero (Party.amount x)) <$> l).

(** The runs of the loop on positive finite amounts: [Settles debtors
    creditors new] when the loop started on these two suffixes pushes
    exactly [new].  Each step settles the smaller head in full and keeps
    what is left of the larger one, as the subtraction of doubles gives
    it. *)
Inductive Settles : list Party.t → list Party.t → list Transaction.t → Prop :=
  | Settles_no_debtor creditors : Settles [] creditors []
  | Settles_no_creditor debtors : Settles debtors [] []
  | Settles_step d c ds cs new x y :
      Party.amount d = Fin x →
      Party.amount c = Fin y →
      0 < x →
      0 < y →
      Settles
        (if decide (x ≤ y) then ds
         else Party.mk (Party.id d) (num_sub (Fin x) (Fin y)) :: ds)
        (if decide (y ≤ x) then cs
         else Party.mk (Party.id c) (num_sub (Fin y) (Fin x)) :: cs)
        new →
      Settles (d :: ds) (c :: cs)
        (Transaction.mk (Party.id d) (Party.id c) (Fin (Z.min x y)) :: new).

(** Replacing the non-finite entries of a round by 0 *)
Definition zeroNonFinite (round : GameRound.t) : GameRound.t :=
  GameRound.mk (GameRound.id round) (GameRound.bankerId round)
    ((λ v, if isFinite v then v else Fin 0) <$> GameRound.values round).

(** A debt item under another round number *)
Definition withRoundIndex (n : nat) (d : DebtItem.t) : DebtItem.t :=
  DebtItem.mk n (DebtItem.bankerId d) (DebtItem.fromId d) (DebtItem.toId d)
    (DebtItem.amount d).

(** The renumbering of the debt items when the round at position [n]
    (0-based) leaves the list: later rounds move up by one. *)
Definition renumber (n : nat) (d : DebtItem.t) : DebtItem.t :=
  if decide (n < DebtItem.roundIndex d)%nat
  then withRoundIndex (DebtItem.roundIndex d - 1) d
  else d.



(** ** The other helpers and handlers of [App] *)

(** [players.find((p) => p.id === id)?.name ?? id] *)
Definition nameById (players : list Player.t) (id : string) : string :=
  match find (λ p, bool_decide (Player.id p = id)) players with
  | Some p => Player.name p
  | None => id
  end.

(** [getMoneyClass(value, isBanker)]; [value] is [undefined] for a missing
    entry. *)
Definition getMoneyClass (value : option number) (isBanker : bool) : string :=
  if isBanker then EmptyString
  else
    let v := orZero value in
    if num_pos v then "cp-input-pos"
    else if num_neg0 v then "cp-input-neg"
    else "cp-input-zero".

(** [addPlayer].  The id is what [uid()] returned, a reading of the clock
    and of the random generator: it is handed in. *)
Definition addPlayer (newId : string) (st : State) : State :=
  mkState
    (players st
     ++ [Player.mk newId ("Người chơi " +:+ pretty (length (players st) + 1)%nat)])
    (rounds st).

(** [renamePlayer] *)
Definition renamePlayer (id name : string) (st : State) : State :=
  mkState
    ((λ p, if decide (Player.id p = id) then Player.mk (Player.id p) name else p)
       <$> players st)
    (rounds st).

(** [addRound], with the result of [uid()] handed in *)
Definition addRound (newId : string) (st : State) : State :=
  let lastBankerId :=
    if decide (0 < length (rounds st))%nat then
      default EmptyString
        (GameRound.bankerId <$> rounds st !! (length (rounds st) - 1)%nat)
    else EmptyString in
  mkState (players st) (rounds st ++ [GameRound.mk newId lastBankerId ∅]).

(** [Partial<GameRound>]: every field may be absent *)
Module PartialRound.
Record t : Type := mk {
  id : option string;
  bankerId : option string;
  values : option (gmap string number)
}.
End PartialRound.

(** [{ ...r, ...newRoundData }] *)
Definition mergeRound (r : GameRound.t) (newRoundData : PartialRound.t) : GameRound.t :=
  GameRound.mk
    (default (GameRound.id r) (PartialRound.id newRoundData))
    (default (GameRound.bankerId r) (PartialRound.bankerId newRoundData))
    (default (GameRound.values r) (PartialRound.values newRoundData)).

(** [updateRound] *)
Definition updateRound (roundId : string) (newRoundData : PartialRound.t)
    (st : State) : State :=
  mkState (players st)
    ((λ r, if decide (GameRound.id r = roundId) then mergeRound r newRoundData else r)
       <$> rounds st).

(** [updateRoundValue]; [value] is [null] when the input is cleared. *)
Definition updateRoundValue (roundId playerId : string) (value : option number)
    (st : State) : State :=
  match find (λ r, bool_decide (GameRound.id r = roundId)) (rounds st) with
  | None => st
  | Some round =>
      if decide (playerId = GameRound.bankerId round) then st
      else
        updateRound roundId
          (PartialRound.mk None None
             (Some (<[playerId := orZero value]> (GameRound.values round))))
          st
  end.

(** [removeRound] *)
Definition removeRound (roundId : string) (st : State) : State :=
  mkState (players st) (filter (λ r, GameRound.id r ≠ roundId) (rounds st)).

(** [resetGame], on the roster and the rounds; the money step and the
    stored copies it also resets are outside [State]. *)
Definition resetGame (st : State) : State := mkState (players st) [].

(** The elements of [ranking]: [{ personId, total }] *)
Module Rank.
Record t : Type := mk { personId : string; total : number }.
End Rank.

Definition byTotalDesc (a b : Rank.t) : number := num_sub (Rank.total b) (Rank.total a).

(** [ranking] *)
Definition ranking (players : list Player.t) (totals : list (string * number))
    : list Rank.t :=
  array_sort byTotalDesc
    ((λ p, Rank.mk (Player.id p) (balanceOf totals (Player.id p))) <$> players).




(** ** Measures used in the further statements *)

Definition units (t : Transaction.t) : Z := finiteOrZero (Transaction.amount t).


(** The exact sum of all transaction amounts *)
Definition settled (settlement : list Transaction.t) : Z :=
  zsum (units <$> settlement).

(** What the transactions have [k] pay and receive, added up exactly *)
Definition paid (settlement : list Transaction.t) (k : string) : Z :=
  zsum (units <$> filter (λ t, Transaction.fromId t = k) settlement).
Definition received (settlement : list Transaction.t) (k : string) : Z :=
  zsum (units <$> filter (λ t, Transaction.toId t = k) settlement).

(** * Properties *)

(** ** Numbers *)

Lemma num_add_0_r (a : number) : num_add a (Fin 0) = a.
Proof. by destruct a. Qed.


Lemma pow2_pos (n : Z) : 0 ≤ n → 0 < 2 ^ n.
Proof. intros. apply Z.pow_pos_nonneg; lia. Qed.

Lemma pow2_divide (e k : Z) : 0 ≤ e ≤ k → (2 ^ e | 2 ^ k).
Proof.
  intros He. exists (2 ^ (k - e)). rewrite <- Z.pow_add_r by lia. f_equal. lia.
Qed.

Lemma onGrid_divide (k z : Z) : 0 ≤ k → onGrid k z ↔ (2 ^ k | z).
Proof.
  intros Hk. unfold onGrid. apply Z.mod_divide.
  pose proof (pow2_pos k Hk). lia.
Qed.


Lemma onGrid_add (k x y : Z) : 0 ≤ k → onGrid k x → onGrid k y → onGrid k (x + y).
Proof. intros Hk. rewrite !onGrid_divide by done. apply Z.divide_add_r. Qed.

Lemma onGrid_opp (k x : Z) : 0 ≤ k → onGrid k x → onGrid k (- x).
Proof. intros Hk. rewrite !onGrid_divide by done. apply Z.divide_opp_r. Qed.

Lemma onGrid_sub (k x y : Z) : 0 ≤ k → onGrid k x → onGrid k y → onGrid k (x - y).
Proof. intros Hk. rewrite !onGrid_divide by done. apply Z.divide_sub_r. Qed.

Lemma onGrid_abs (k x : Z) : 0 ≤ k → onGrid k x → onGrid k (Z.abs x).
Proof. intros Hk. rewrite !onGrid_divide by done. apply Z.divide_abs_r. Qed.

Lemma onGrid_min (k x y : Z) : onGrid k x → onGrid k y → onGrid k (Z.min x y).
Proof. intros. destruct (Z.min_spec x y) as [[_ ->]|[_ ->]]; done. Qed.

(** Within 2^53 steps of a grid nothing is rounded. *)
Lemma nearest64_exact (k a : Z) :
  0 ≤ k → onGrid k a → 0 ≤ a ≤ 2 ^ (53 + k) → nearest64 a = a.
Proof.
  intros Hk Hgrid Ha. unfold nearest64.
  destruct (decide (a < 2 ^ 53)) as [|Hbig]; [done|].
  assert (Hpos : 0 < a) by lia.
  assert (Hlog : 53 ≤ Z.log2 a) by (apply Z.log2_le_pow2; lia).
  set (e := Z.log2 a - 52).
  assert (He : 1 ≤ e) by (unfold e; lia).
  assert (Hmod : a mod 2 ^ e = 0).
  { apply Z.mod_divide; [pose proof (pow2_pos e); lia|].
    destruct (decide (a = 2 ^ (53 + k))) as [Heq|Hne].
    - assert (e = k + 1) as ->.
      { unfold e. rewrite Heq, Z.log2_pow2 by lia. lia. }
      rewrite Heq. apply pow2_divide. lia.
    - assert (Z.log2 a < 53 + k) by (apply Z.log2_lt_pow2; lia).
      apply Z.divide_trans with (2 ^ k); [apply pow2_divide; unfold e; lia|].
      by apply onGrid_divide. }
  cbv zeta. rewrite Hmod.
  rewrite decide_True by (apply pow2_pos; lia).
  pose proof (Z.div_mod a (2 ^ e)) as Hdm.
  pose proof (pow2_pos e). lia.
Qed.

Lemma nearest64_pos (a : Z) : 0 < a → 0 < nearest64 a.
Proof.
  intros Ha. unfold nearest64.
  destruct (decide (a < 2 ^ 53)) as [|Hbig]; [done|].
  assert (Hlog : 53 ≤ Z.log2 a) by (apply Z.log2_le_pow2; lia).
  set (e := Z.log2 a - 52).
  assert (He : 0 ≤ e) by (unfold e; lia).
  pose proof (pow2_pos e He) as Hpe.
  assert (Hq : 0 < a / 2 ^ e).
  { apply Z.div_str_pos. split; [done|].
    apply Z.le_trans with (2 ^ Z.log2 a); [|apply Z.log2_spec; lia].
    apply Z.pow_le_mono_r; unfold e; lia. }
  cbv zeta. repeat case_decide; nia.
Qed.

(** A sum below the overflow threshold rounds to a double below it. *)
Lemma nearest64_range (a : Z) : 0 ≤ a < overflowAt → nearest64 a < overflowAt.
Proof.
  intros Ha. unfold nearest64.
  destruct (decide (a < 2 ^ 53)) as [|Hbig]; [lia|].
  assert (Hpos : 0 < a) by lia.
  assert (Hlog : 53 ≤ Z.log2 a) by (apply Z.log2_le_pow2; lia).
  assert (Hlog' : Z.log2 a < 2098).
  { apply Z.log2_lt_pow2; [done|]. unfold overflowAt in Ha.
    pose proof (pow2_pos 2044). lia. }
  set (e := Z.log2 a - 52).
  assert (He : 1 ≤ e ≤ 2045) by (unfold e; lia).
  pose proof (pow2_pos e) as Hpe.
  pose proof (Z.div_mod a (2 ^ e)) as Hdm.
  pose proof (Z.mod_pos_bound a (2 ^ e)) as Hr.
  assert (Hhalf : 2 ^ e = 2 * 2 ^ (e - 1)).
  { rewrite <- Z.pow_succ_r by lia. f_equal. lia. }
  assert (Hq : a / 2 ^ e < 2 ^ 53).
  { apply Z.div_lt_upper_bound; [lia|].
    rewrite <- Z.pow_add_r by lia.
    replace (e + 53) with (Z.succ (Z.log2 a)) by (unfold e; lia).
    apply Z.log2_spec. done. }
  cbv zeta.
  destruct (decide (a mod 2 ^ e < 2 ^ (e - 1))) as [|Hup]; [nia|].
  destruct (decide (a mod 2 ^ e = 2 ^ (e - 1) ∧ Z.even (a / 2 ^ e) = true)); [nia|].
  destruct (decide (e = 2045)) as [He'|He'].
  - rewrite He' in *. unfold overflowAt in *.
    replace (2 ^ 2098) with (2 ^ 53 * 2 ^ 2045) in * by (by rewrite <- Z.pow_add_r by lia).
    replace (2045 - 1) with 2044 in * by lia. nia.
  - assert (Hle : 2 ^ e ≤ 2 ^ 2044) by (apply Z.pow_le_mono_r; lia).
    unfold overflowAt.
    replace (2 ^ 2098) with (2 ^ 54 * 2 ^ 2044) by (by rewrite <- Z.pow_add_r by lia).
    assert (2 ^ 54 = 2 * 2 ^ 53) by reflexivity.
    pose proof (pow2_pos 2044). nia.
Qed.

Lemma round64_exact (k z : Z) :
  gridStep k → onGrid k z → Z.abs z ≤ 2 ^ (53 + k) → round64 z = Fin z.
Proof.
  intros [Hk Hk'] Hgrid Hz. unfold round64.
  assert (Hlim : 2 ^ (53 + k) < overflowAt).
  { unfold overflowAt.
    assert (2 ^ (53 + k) ≤ 2 ^ 2097) by (apply Z.pow_le_mono_r; lia).
    replace (2 ^ 2098) with (2 * 2 ^ 2097) by (by rewrite <- Z.pow_succ_r by lia).
    assert (2 ^ 2044 < 2 ^ 2097) by (apply Z.pow_lt_mono_r; lia). lia. }
  rewrite decide_False by lia.
  rewrite (nearest64_exact k) by (try apply onGrid_abs; try done; lia).
  f_equal. lia.
Qed.

Lemma round64_sign (z : Z) :
  num_pos (round64 z) = bool_decide (0 < z)
  ∧ num_neg0 (round64 z) = bool_decide (z < 0)
  ∧ (round64 z = Fin 0 ↔ z = 0).
Proof.
  unfold round64. destruct (decide (overflowAt ≤ Z.abs z)) as [Hov|Hov].
  - assert (0 < overflowAt) by done.
    destruct (decide (0 < z)); simpl.
    + rewrite bool_decide_eq_true_2, bool_decide_eq_false_2 by lia.
      split; [done|]. split; [done|]. split; [done|lia].
    + rewrite bool_decide_eq_false_2, bool_decide_eq_true_2 by lia.
      split; [done|]. split; [done|]. split; [done|lia].
  - destruct (Z.lt_trichotomy z 0) as [Hz|[->|Hz]].
    + assert (Hn : 0 < nearest64 (Z.abs z)) by (apply nearest64_pos; lia).
      rewrite Z.sgn_neg by done. cbn [num_pos num_neg0].
      rewrite !(bool_decide_eq_false_2 (0 < _)), !(bool_decide_eq_true_2 (_ < 0)) by lia.
      split; [done|]. split; [done|]. split; [|lia].
      intros [=]. lia.
    + done.
    + assert (Hn : 0 < nearest64 (Z.abs z)) by (apply nearest64_pos; lia).
      rewrite Z.sgn_pos by done. cbn [num_pos num_neg0].
      rewrite !(bool_decide_eq_true_2 (0 < _)), !(bool_decide_eq_false_2 (_ < 0)) by lia.
      split; [done|]. split; [done|]. split; [|lia].
      intros [=]. lia.
Qed.

Lemma num_add_exact (k x y : Z) :
  gridStep k → onGrid k x → onGrid k y → Z.abs (x + y) ≤ 2 ^ (53 + k) →
  num_add (Fin x) (Fin y) = Fin (x + y).
Proof.
  intros Hk Hx Hy Hsum. simpl.
  destruct (decide (y = 0)) as [->|?]; [f_equal; lia|].
  destruct (decide (x = 0)) as [->|?]; [f_equal; lia|].
  apply (round64_exact k); [done| |done]. apply onGrid_add; [apply Hk|done..].
Qed.

Lemma num_sub_exact (k x y : Z) :
  gridStep k → onGrid k x → onGrid k y → Z.abs (x - y) ≤ 2 ^ (53 + k) →
  num_sub (Fin x) (Fin y) = Fin (x - y).
Proof.
  intros Hk Hx Hy Hsum. unfold num_sub, num_neg.
  rewrite (num_add_exact k); [f_equal; lia|done|done| |].
  - apply onGrid_opp; [apply Hk|done].
  - by replace (x + - y) with (x - y) by lia.
Qed.

(** The sign of a difference of doubles is the sign of the exact
    difference. *)
Lemma num_sub_sign (x y : Z) :
  num_pos (num_sub (Fin x) (Fin y)) = bool_decide (y < x)
  ∧ num_neg0 (num_sub (Fin x) (Fin y)) = bool_decide (x < y)
  ∧ (num_sub (Fin x) (Fin y) = Fin 0 ↔ x = y).
Proof.
  unfold num_sub, num_neg, num_add.
  destruct (decide (- y = 0)) as [Hy|Hy].
  { assert (y = 0) as -> by lia. simpl.
    split; [by apply bool_decide_ext|]. split; [by apply bool_decide_ext|].
    split; [by intros [=]|by intros ->]. }
  destruct (decide (x = 0)) as [->|Hx].
  { simpl. split; [apply bool_decide_ext; lia|].
    split; [apply bool_decide_ext; lia|]. split; [intros [=]; lia|lia]. }
  destruct (round64_sign (x + - y)) as (-> & -> & ->).
  split; [apply bool_decide_ext; lia|]. split; [apply bool_decide_ext; lia|]. lia.
Qed.

Lemma num_sub_self (x : Z) : num_sub (Fin x) (Fin x) = Fin 0.
Proof. by apply num_sub_sign. Qed.

(** What is left of the larger of two positive doubles is a positive
    double. *)
Lemma num_sub_positive (x y : Z) :
  0 < y < x → x < overflowAt →
  ∃ z, num_sub (Fin x) (Fin y) = Fin z ∧ 0 < z < overflowAt.
Proof.
  intros Hy Hx. unfold num_sub, num_neg, num_add.
  rewrite !decide_False by lia. unfold round64.
  rewrite decide_False by lia.
  exists (Z.sgn (x + - y) * nearest64 (Z.abs (x + - y))). split; [done|].
  rewrite Z.sgn_pos, Z.abs_eq by lia.
  pose proof (nearest64_pos (x + - y)). pose proof (nearest64_range (x + - y)). lia.
Qed.

Lemma num_le_trans (a b c : number) : num_le a b → num_le b c → num_le a c.
Proof. destruct a, b, c; simpl; try done; lia. Qed.

(** For numbers other than [NaN], [a - b > 0] decides between [b <= a]
    and [a <= b]. *)
Lemma num_sub_le (a b : number) :
  a ≠ NaN → b ≠ NaN →
  if num_pos (num_sub a b) then num_le b a else num_le a b.
Proof.
  intros Ha Hb. destruct a as [x| | |], b as [y| | |]; try done.
  destruct (num_sub_sign x y) as (-> & _ & _).
  case_bool_decide; simpl; lia.
Qed.

(** ** The scenario, evaluated *)

Example scenario_totals :
  totals [pA; pB; pC] [round1] = [("A", ofInt (-30)); ("B", ofInt 50); ("C", ofInt (-20))].
Proof. vm_compute. reflexivity. Qed.

Example scenario_settlement :
  finalSettlement [("A", ofInt (-30)); ("B", ofInt 50); ("C", ofInt (-20))]
  = Some [Transaction.mk "A" "B" (ofInt 30); Transaction.mk "C" "B" (ofInt 20)].
Proof. vm_compute. reflexivity. Qed.

Example scenario_summary :
  stSummary (mkState [pA; pB; pC] [round1])
  = Some [PersonSettlement.mk "B" (ofInt 0) (ofInt 50) (ofInt 50);
          PersonSettlement.mk "A" (ofInt 30) (ofInt 0) (ofInt (-30));
          PersonSettlement.mk "C" (ofInt 20) (ofInt 0) (ofInt (-20))].
Proof. vm_compute. reflexivity. Qed.

Example scenario_debts :
  debtsByRound [pA; pB; pC] [round1]
  = [DebtItem.mk 1 "A" "A" "B" (ofInt 50); DebtItem.mk 1 "A" "C" "A" (ofInt 20)].
Proof. vm_compute. reflexivity. Qed.

(** Rounding and overflow: 2^53 + 1 is not a double, and twice 2^1023 is
    beyond the largest one. *)
Example scenario_rounding :
  num_add (ofInt (2 ^ 53)) (ofInt 1) = ofInt (2 ^ 53)
  ∧ num_add (ofInt (2 ^ 53)) (ofInt 3) = ofInt (2 ^ 53 + 4)
  ∧ num_sub (ofInt (2 ^ 54)) (ofInt 1) = ofInt (2 ^ 54)
  ∧ num_add (Fin (2 ^ 2097)) (Fin (2 ^ 2097)) = PInf
  ∧ num_sub PInf PInf = NaN.
Proof. repeat split; vm_compute; reflexivity. Qed.

(** ** Sums *)

Lemma fold_left_add_acc (l : list Z) (a : Z) :
  fold_left Z.add l a = a + zsum l.
Proof.
  unfold zsum. revert a.
  induction l as [|x l IH]; intros a; simpl; [lia|].
  rewrite (IH (a + x)), (IH (0 + x)). lia.
Qed.


Lemma zsum_cons (x : Z) (l : list Z) : zsum (x :: l) = x + zsum l.
Proof. unfold zsum at 1. simpl. rewrite fold_left_add_acc. lia. Qed.


Lemma zsum_perm (l1 l2 : list Z) : l1 ≡ₚ l2 → zsum l1 = zsum l2.
Proof.
  induction 1; rewrite ?zsum_cons; lia.
Qed.













Lemma accumulate_zero (l : list Z) : Forall (λ z, z = 0) l → accumulate l = Fin 0.
Proof.
  unfold accumulate. induction 1 as [|x l -> _ IH]; [done|]. done.
Qed.

Lemma accumulate_snoc (l : list Z) (z : Z) :
  accumulate (l ++ [z]) = num_add (accumulate l) (Fin z).
Proof. unfold accumulate. by rewrite fold_left_app. Qed.

Lemma accumulate_fmap {A} (f : A → Z) (l : list A) (a : number) :
  fold_left (λ a z, num_add a (Fin z)) (f <$> l) a
  = fold_left (λ a x, num_add a (Fin (f x))) l a.
Proof. revert a. induction l as [|x l IH]; intros a; simpl; [done|]. apply IH. Qed.

(** ** Objects *)

Lemma obj_get_None {V} (k : string) (o : list (string * V)) :
  obj_get k o = None ↔ k ∉ o.*1.
Proof.
  induction o as [|[k' v] o IH]; simpl.
  - split; [intros _; apply not_elem_of_nil|done].
  - rewrite not_elem_of_cons. case_decide as Hk.
    + split; [done|]. intros [Hne _]. by destruct Hne.
    + rewrite IH. split; [intros ?; split; [congruence|done]|tauto].
Qed.

Lemma obj_get_is_Some {V} (k : string) (o : list (string * V)) :
  is_Some (obj_get k o) ↔ k ∈ o.*1.
Proof.
  rewrite <- not_eq_None_Some, obj_get_None.
  split; [apply dec_stable|tauto].
Qed.

Lemma obj_set_keys {V} (k : string) (v : V) (o : list (string * V)) :
  k ∈ o.*1 → (obj_set k v o).*1 = o.*1.
Proof.
  induction o as [|[k' v'] o IH]; simpl; intros Hin.
  - by apply elem_of_nil in Hin.
  - case_decide; simpl; [congruence|].
    f_equal. apply IH. apply elem_of_cons in Hin as [->|]; done.
Qed.

Lemma obj_set_keys_new {V} (k : string) (v : V) (o : list (string * V)) :
  k ∉ o.*1 → obj_set k v o = o ++ [(k, v)].
Proof.
  induction o as [|[k' v'] o IH]; simpl; intros Hin; [done|].
  apply not_elem_of_cons in Hin as [? ?].
  case_decide; [congruence|]. by rewrite IH.
Qed.

Lemma obj_set_Forall {V} (P : string * V → Prop) (k : string) (v : V)
    (o : list (string * V)) :
  P (k, v) → Forall P o → Forall P (obj_set k v o).
Proof.
  intros Hkv. induction 1 as [|[k' v'] o Hx Ho IH]; simpl.
  - by repeat constructor.
  - case_decide; constructor; done.
Qed.

Lemma obj_get_elem {V} (b : list (string * V)) (k : string) (v : V) :
  NoDup b.*1 → (k, v) ∈ b → obj_get k b = Some v.
Proof.
  induction b as [|[k' v'] b IH]; intros Hnd Hin; [by apply elem_of_nil in Hin|].
  rewrite fmap_cons in Hnd. apply NoDup_cons in Hnd as [Hk' Hnd]. simpl in *.
  apply elem_of_cons in Hin as [[= -> ->]|Hin]; [by rewrite decide_True|].
  rewrite decide_False; [by apply IH|].
  intros ->. apply Hk'. apply list_elem_of_fmap. by exists (k, v).
Qed.

Lemma obj_get_Some_elem {V} (b : list (string * V)) (k : string) (v : V) :
  obj_get k b = Some v → (k, v) ∈ b.
Proof.
  induction b as [|[k' v'] b IH]; simpl; [done|].
  case_decide; [intros [= ->]; subst; left|intros; right; auto].
Qed.

Lemma addAt_keys (f : string → Z) (o : list (string * number)) : (addAt f o).*1 = o.*1.
Proof. unfold addAt. rewrite <- list_fmap_compose. by apply list_fmap_ext. Qed.

Lemma addAt_ext (f g : string → Z) (o : list (string * number)) :
  (∀ k, k ∈ o.*1 → f k = g k) → addAt f o = addAt g o.
Proof.
  intros H. apply list_fmap_ext. intros i [k v] Hi. simpl.
  rewrite (H k); [done|]. apply list_elem_of_fmap. exists (k, v).
  split; [done|]. by eapply list_elem_of_lookup_2.
Qed.

Lemma addAt_zero (f : string → Z) (o : list (string * number)) :
  (∀ k, k ∈ o.*1 → f k = 0) → addAt f o = o.
Proof.
  intros H. rewrite (addAt_ext f (λ _, 0)) by done.
  unfold addAt. rewrite <- (list_fmap_id o) at 2.
  apply list_fmap_ext. intros i [k v] _. cbn [fst snd]. by rewrite num_add_0_r.
Qed.

(** Two rounds of additions that never meet on a key amount to one. *)
Lemma addAt_addAt (f g : string → Z) (o : list (string * number)) :
  (∀ k, f k = 0 ∨ g k = 0) →
  addAt f (addAt g o) = addAt (λ k, g k + f k) o.
Proof.
  intros Hfg. unfold addAt. rewrite <- list_fmap_compose.
  apply list_fmap_ext. intros i [k v] _. cbn [fst snd compose]. f_equal.
  destruct (Hfg k) as [->| ->].
  - by rewrite num_add_0_r, Z.add_0_r.
  - by rewrite num_add_0_r, Z.add_0_l.
Qed.

Lemma addAt_cons (f : string → Z) (k : string) (v : number) (o : list (string * number)) :
  addAt f ((k, v) :: o) = (k, num_add v (Fin (f k))) :: addAt f o.
Proof. reflexivity. Qed.

Lemma bump_addAt (i : string) (x : number) (o : list (string * number)) :
  NoDup o.*1 →
  bump i x o = addAt (λ k, if decide (k = i) then finiteOrZero x else 0) o.
Proof.
  unfold bump. induction o as [|[k v] o IH]; intros Hnd; [done|].
  rewrite fmap_cons in Hnd. apply NoDup_cons in Hnd as [Hk Hnd].
  rewrite addAt_cons. cbn [obj_get obj_set fst snd].
  destruct (decide (k = i)) as [Hki|Hki].
  - subst k. f_equal. symmetry.
    apply addAt_zero. intros k Hin. case_decide; [subst; contradiction|done].
  - specialize (IH Hnd). rewrite num_add_0_r.
    destruct (obj_get i o) as [a|] eqn:Hget; f_equal; exact IH.
Qed.

(** ** [totals] as pointwise addition *)

Lemma totalsRound_addAt (players : list Player.t) (acc : list (string * number))
    (round : GameRound.t) :
  NoDup acc.*1 →
  totalsRound players acc round = addAt (contribution players round) acc.
Proof.
  intros Hnd. unfold totalsRound, contribution.
  case_decide as Hb; [symmetry; by apply addAt_zero|].
  unfold normalized. generalize (finalValues players round). intros m.
  apply (map_fold_weak_ind (λ res m, res =
    addAt (λ k, match m !! k with Some v => finiteOrZero v | None => 0 end) acc)).
  - symmetry. apply addAt_zero. intros k _. by rewrite lookup_empty.
  - intros i x m' r Hi ->.
    rewrite bump_addAt by (by rewrite addAt_keys).
    rewrite addAt_addAt.
    + apply addAt_ext. intros k _.
      rewrite lookup_insert. case_decide as Hk.
      * subst k. rewrite Hi, decide_True by done. lia.
      * rewrite decide_False by congruence. lia.
    + intros k. destruct (decide (k = i)) as [->|?]; [right; by rewrite Hi|by left].
Qed.

Lemma totalsRound_keys (players : list Player.t) (acc : list (string * number))
    (round : GameRound.t) :
  NoDup acc.*1 → (totalsRound players acc round).*1 = acc.*1.
Proof. intros. by rewrite totalsRound_addAt, addAt_keys. Qed.

Lemma fold_totalsRound (players : list Player.t) (rounds : list GameRound.t)
    (acc : list (string * number)) :
  NoDup acc.*1 →
  fold_left (totalsRound players) rounds acc
  = (λ kv, (kv.1, fold_left (λ a r, num_add a (Fin (contribution players r kv.1)))
                    rounds kv.2)) <$> acc.
Proof.
  revert acc. induction rounds as [|r rounds IH]; intros acc Hnd; cbn [fold_left].
  - rewrite <- (list_fmap_id acc) at 1. apply list_fmap_ext. by intros i [k v] _.
  - rewrite IH by (by rewrite totalsRound_keys).
    rewrite totalsRound_addAt by done. unfold addAt.
    rewrite <- list_fmap_compose. apply list_fmap_ext. by intros i [k v] _.
Qed.

Lemma initAcc_fold_keys (players : list Player.t) (acc : list (string * number)) :
  NoDup acc.*1 →
  NoDup (fold_left (λ acc p, obj_set (Player.id p) (Fin 0) acc) players acc).*1
  ∧ ∀ k, k ∈ (fold_left (λ acc p, obj_set (Player.id p) (Fin 0) acc) players acc).*1
         ↔ k ∈ acc.*1 ∨ k ∈ Player.id <$> players.
Proof.
  revert acc. induction players as [|p players IH]; intros acc Hnd; simpl.
  - split; [done|]. intros k. rewrite elem_of_nil. tauto.
  - destruct (decide (Player.id p ∈ acc.*1)) as [Hin|Hin].
    + destruct (IH (obj_set (Player.id p) (Fin 0) acc)) as [H1 H2].
      { by rewrite obj_set_keys. }
      split; [done|]. intros k. rewrite H2, obj_set_keys, elem_of_cons by done.
      split; [tauto|]. intros [?|[->|?]]; tauto.
    + destruct (IH (obj_set (Player.id p) (Fin 0) acc)) as [H1 H2].
      { rewrite obj_set_keys_new, fmap_app by done. simpl.
        apply NoDup_app. split; [done|]. split; [|apply NoDup_singleton].
        intros x Hx ->%list_elem_of_singleton. done. }
      split; [done|]. intros k.
      rewrite H2, obj_set_keys_new, fmap_app, elem_of_app, elem_of_cons by done.
      simpl. rewrite list_elem_of_singleton. tauto.
Qed.

Lemma initAcc_NoDup (players : list Player.t) : NoDup (initAcc players).*1.
Proof. apply initAcc_fold_keys. constructor. Qed.

Lemma initAcc_keys (players : list Player.t) (k : string) :
  k ∈ (initAcc players).*1 ↔ k ∈ Player.id <$> players.
Proof.
  unfold initAcc.
  destruct (initAcc_fold_keys players []) as [_ H]; [constructor|].
  rewrite H. simpl. rewrite elem_of_nil. tauto.
Qed.

Lemma initAcc_zero (players : list Player.t) :
  Forall (λ kv, kv.2 = Fin 0) (initAcc players).
Proof.
  unfold initAcc.
  assert (H : ∀ acc : list (string * number),
    Forall (λ kv, kv.2 = Fin 0) acc →
    Forall (λ kv, kv.2 = Fin 0)
      (fold_left (λ acc p, obj_set (Player.id p) (Fin 0) acc) players acc)).
  { induction players as [|p players IH]; intros acc Hacc; simpl; [done|].
    apply IH. by apply obj_set_Forall. }
  apply H. constructor.
Qed.

Lemma initAcc_get (players : list Player.t) (k : string) :
  obj_get k (initAcc players)
  = if decide (k ∈ Player.id <$> players) then Some (Fin 0) else None.
Proof.
  case_decide as Hk.
  - apply initAcc_keys, obj_get_is_Some in Hk as [v Hv].
    rewrite Hv. f_equal. apply obj_get_Some_elem in Hv.
    pose proof (initAcc_zero players) as Hz. rewrite Forall_forall in Hz.
    apply (Hz _ Hv).
  - apply obj_get_None. by rewrite initAcc_keys.
Qed.

(** On a roster with unique ids the keys are the ids in roster order. *)
Lemma initAcc_NoDup_ids (players : list Player.t) :
  NoDup (Player.id <$> players) →
  initAcc players = (λ p, (Player.id p, Fin 0)) <$> players.
Proof.
  unfold initAcc.
  assert (H : ∀ acc : list (string * number),
    NoDup (acc.*1 ++ (Player.id <$> players)) →
    fold_left (λ acc p, obj_set (Player.id p) (Fin 0) acc) players acc
    = acc ++ ((λ p, (Player.id p, Fin 0)) <$> players)).
  { induction players as [|p players IH]; intros acc Hnd; simpl.
    - by rewrite app_nil_r.
    - rewrite fmap_cons in Hnd.
      assert (Hp : Player.id p ∉ acc.*1).
      { apply NoDup_app in Hnd as (_ & Hd & _). intros Hin.
        apply (Hd _ Hin). left. }
      rewrite obj_set_keys_new by done. rewrite IH.
      + by rewrite <- app_assoc.
      + rewrite fmap_app. simpl. rewrite <- app_assoc. done. }
  intros Hnd. apply (H []). done.
Qed.

(** The aggregator in closed form: every roster id, once, in the order of
    first occurrence on the roster, with its contributions added up in
    round order. *)
Lemma totals_closed (players : list Player.t) (rounds : list GameRound.t) :
  totals players rounds
  = (λ kv, (kv.1, accumulate ((λ r, contribution players r kv.1) <$> rounds)))
      <$> initAcc players.
Proof.
  unfold totals. rewrite fold_totalsRound by apply initAcc_NoDup.
  pose proof (initAcc_zero players) as Hz. rewrite Forall_forall in Hz.
  apply list_fmap_ext. intros i [k v] Hi. cbn [fst snd].
  assert (v = Fin 0) as -> by (apply (Hz (k, v)); by eapply list_elem_of_lookup_2).
  unfold accumulate. by rewrite accumulate_fmap.
Qed.

Lemma totals_keys (players : list Player.t) (rounds : list GameRound.t) :
  (totals players rounds).*1 = (initAcc players).*1.
Proof.
  rewrite totals_closed, <- list_fmap_compose. by apply list_fmap_ext.
Qed.

Lemma totals_NoDup (players : list Player.t) (rounds : list GameRound.t) :
  NoDup (totals players rounds).*1.
Proof. rewrite totals_keys. apply initAcc_NoDup. Qed.

Lemma obj_get_fmap_key {V W} (f : string → V → W) (k : string) (o : list (string * V)) :
  obj_get k ((λ kv, (kv.1, f kv.1 kv.2)) <$> o) = f k <$> obj_get k o.
Proof.
  induction o as [|[k' v] o IH]; [done|].
  rewrite fmap_cons. cbn [obj_get fst snd].
  case_decide; [by subst|exact IH].
Qed.

Lemma balanceOf_totals (players : list Player.t) (rounds : list GameRound.t) (k : string) :
  balanceOf (totals players rounds) k
  = if decide (k ∈ Player.id <$> players)
    then accumulate ((λ r, contribution players r k) <$> rounds) else Fin 0.
Proof.
  unfold balanceOf. rewrite totals_closed.
  rewrite (obj_get_fmap_key
    (λ k _, accumulate ((λ r, contribution players r k) <$> rounds))).
  rewrite initAcc_get. by case_decide.
Qed.


(** ** Zero-sum rounds *)









Lemma normalized_other (players : list Player.t) (round : GameRound.t) (k : string) :
  k ≠ GameRound.bankerId round →
  normalized players round k = recorded round k.
Proof.
  intros Hk. unfold normalized, finalValues, recorded.
  rewrite lookup_insert_ne by done.
  by destruct (GameRound.values round !! k).
Qed.

Lemma contribution_other (players : list Player.t) (round : GameRound.t) (k : string) :
  GameRound.bankerId round ≠ EmptyString →
  k ≠ GameRound.bankerId round →
  contribution players round k = recorded round k.
Proof.
  intros Hb Hk. unfold contribution. rewrite decide_False by done.
  by apply normalized_other.
Qed.




(** ** The exact range *)










(** ** [debtsByRound] as a concatenation *)

Lemma debtsPlayer_app (idx : nat) (round : GameRound.t) (items : list DebtItem.t)
    (p : Player.t) :
  debtsPlayer idx round items p = items ++ debtsPlayer idx round [] p.
Proof.
  unfold debtsPlayer.
  repeat (case_decide || case_match); simpl; by rewrite ?app_nil_r.
Qed.

Lemma fold_debtsPlayer (idx : nat) (round : GameRound.t) (players : list Player.t)
    (items : list DebtItem.t) :
  fold_left (debtsPlayer idx round) players items
  = items ++ mjoin (debtsPlayer idx round [] <$> players).
Proof.
  revert items. induction players as [|p players IH]; intros items; simpl.
  - by rewrite app_nil_r.
  - rewrite IH, (debtsPlayer_app _ _ items). by rewrite <- app_assoc.
Qed.

Lemma debtsRound_app (players : list Player.t) (items : list DebtItem.t)
    (round : GameRound.t) (idx : nat) :
  debtsRound players items round idx = items ++ debtsRound players [] round idx.
Proof.
  unfold debtsRound. case_decide; [by rewrite app_nil_r|].
  by rewrite fold_debtsPlayer, (fold_debtsPlayer _ _ _ []).
Qed.

Lemma forEachIdx_debts (players : list Player.t) (rounds : list GameRound.t)
    (idx : nat) (items : list DebtItem.t) :
  forEachIdx (debtsRound players) rounds idx items
  = items ++ mjoin (imap (λ i round, debtsRound players [] round (idx + i)) rounds).
Proof.
  revert idx items. induction rounds as [|r rounds IH]; intros idx items; simpl.
  - by rewrite app_nil_r.
  - rewrite IH, (debtsRound_app _ items), <- app_assoc, Nat.add_0_r.
    do 3 f_equal. apply imap_ext. intros i x _. simpl. f_equal. lia.
Qed.

Lemma debtsByRound_mjoin (players : list Player.t) (rounds : list GameRound.t) :
  debtsByRound players rounds
  = mjoin (imap (λ idx round, debtsRound players [] round idx) rounds).
Proof. unfold debtsByRound. by rewrite forEachIdx_debts. Qed.

Lemma debtsRound_nil (players : list Player.t) (round : GameRound.t) (idx : nat) :
  debtsRound players [] round idx
  = if decide (GameRound.bankerId round = EmptyString) then []
    else mjoin (debtsPlayer idx round [] <$> players).
Proof. unfold debtsRound. case_decide; [done|]. by rewrite fold_debtsPlayer. Qed.

(** What a player emits, by the sign of the recorded units *)
Lemma debtsPlayer_cases (idx : nat) (round : GameRound.t) (p : Player.t) :
  debtsPlayer idx round [] p
  = if decide (Player.id p = GameRound.bankerId round) then []
    else if decide (0 < recorded round (Player.id p)) then
      [DebtItem.mk (idx + 1) (GameRound.bankerId round) (GameRound.bankerId round)
         (Player.id p) (Fin (recorded round (Player.id p)))]
    else if decide (recorded round (Player.id p) < 0) then
      [DebtItem.mk (idx + 1) (GameRound.bankerId round) (Player.id p)
         (GameRound.bankerId round) (Fin (- recorded round (Player.id p)))]
    else [].
Proof.
  unfold debtsPlayer, recorded. case_decide; [done|].
  destruct (orZero (GameRound.values round !! Player.id p)) as [z| | |]; try done.
  - cbn [isFinite negb orb finiteOrZero num_pos num_abs].
    destruct (decide (z = 0)) as [->|Hz]; [done|].
    rewrite bool_decide_eq_false_2 by congruence.
    destruct (decide (0 < z)).
    + by rewrite bool_decide_eq_true_2.
    + rewrite bool_decide_eq_false_2, decide_True by lia.
      by rewrite Z.abs_neq by lia.
Qed.

(** ** The stable sort *)

Section SortFacts.
Context {A : Type} (cmp : A → A → number).

Lemma sort_insert_perm (x : A) (l : list A) : sort_insert cmp x l ≡ₚ x :: l.
Proof.
  induction l as [|y l IH]; simpl; [done|].
  destruct (num_pos (cmp x y)); [|done]. rewrite IH. apply Permutation_swap.
Qed.

Lemma array_sort_perm (l : list A) : array_sort cmp l ≡ₚ l.
Proof.
  induction l as [|x l IH]; simpl; [done|].
  by rewrite sort_insert_perm, IH.
Qed.


Lemma elem_of_array_sort (l : list A) (x : A) : x ∈ array_sort cmp l ↔ x ∈ l.
Proof. by rewrite array_sort_perm. Qed.

(** A comparator whose sign decides a transitive order sorts by it. *)
Context (R : relation A) (Rtrans : ∀ x y z, R x y → R y z → R x z).

Lemma sort_insert_sorted (x : A) (l : list A) :
  (∀ y, y ∈ l → if num_pos (cmp x y) then R y x else R x y) →
  StronglySorted R l → StronglySorted R (sort_insert cmp x l).
Proof.
  induction l as [|y l IH]; simpl; intros Hx Hs.
  - repeat constructor.
  - apply StronglySorted_inv in Hs as [Hl Hy].
    pose proof (Hx y ltac:(left)) as Hxy.
    destruct (num_pos (cmp x y)).
    + constructor; [apply IH; [|done]; intros z Hz; apply Hx; by right|].
      rewrite sort_insert_perm. constructor; done.
    + constructor; [by constructor|].
      constructor; [done|]. eapply Forall_impl; [exact Hy|].
      simpl. intros z Hz. by eapply Rtrans.
Qed.

Lemma array_sort_sorted (l : list A) :
  (∀ x y, x ∈ l → y ∈ l → if num_pos (cmp x y) then R y x else R x y) →
  StronglySorted R (array_sort cmp l).
Proof.
  induction l as [|x l IH]; intros Hl; [constructor|].
  change (array_sort cmp (x :: l)) with (sort_insert cmp x (array_sort cmp l)).
  apply sort_insert_sorted.
  - intros y Hy. rewrite elem_of_array_sort in Hy. apply (Hl x y); [left|by right].
  - apply IH. intros y z Hy Hz. apply Hl; by right.
Qed.
End SortFacts.

(** ** The settlement loop *)

Lemma drop_lookup_nil {A} (l : list A) (i : nat) : l !! i = None → drop i l = [].
Proof. intros H. apply drop_ge. by apply lookup_ge_None. Qed.

Lemma drop_insert_here {A} (l : list A) (i : nat) (x y : A) :
  l !! i = Some x → drop i (<[i := y]> l) = y :: drop (S i) l.
Proof.
  intros H. apply lookup_lt_Some in H as Hlt.
  rewrite (drop_S _ y i) by (by apply list_lookup_insert_eq).
  f_equal. by rewrite drop_insert_lt by lia.
Qed.

Lemma settleLoop_rest (fuel : nat) (debtors creditors : list Party.t)
    (debtorIndex creditorIndex : nat) (transactions : list Transaction.t) :
  settleLoop fuel debtors creditors debtorIndex creditorIndex transactions
  = settleRest fuel (drop debtorIndex debtors) (drop creditorIndex creditors) transactions.
Proof.
  revert debtors creditors debtorIndex creditorIndex transactions.
  induction fuel as [|fuel IH]; intros ds cs di ci txs; simpl.
  - destruct (ds !! di) as [d|] eqn:Hd.
    + rewrite (drop_S _ _ _ Hd).
      destruct (cs !! ci) as [c|] eqn:Hc.
      * by rewrite (drop_S _ _ _ Hc).
      * by rewrite (drop_lookup_nil _ _ Hc).
    + by rewrite (drop_lookup_nil _ _ Hd).
  - destruct (ds !! di) as [d|] eqn:Hd.
    + rewrite (drop_S _ _ _ Hd).
      destruct (cs !! ci) as [c|] eqn:Hc.
      * rewrite (drop_S _ _ _ Hc). rewrite IH. f_equal.
        -- case_decide.
           ++ by rewrite drop_insert_lt by lia.
           ++ by eapply drop_insert_here.
        -- case_decide.
           ++ by rewrite drop_insert_lt by lia.
           ++ by eapply drop_insert_here.
      * by rewrite (drop_lookup_nil _ _ Hc).
    + by rewrite (drop_lookup_nil _ _ Hd).
Qed.

Lemma settleRest_acc (fuel : nat) (ds cs : list Party.t) (txs : list Transaction.t) :
  settleRest fuel ds cs txs = (txs ++.) <$> settleRest fuel ds cs [].
Proof.
  revert ds cs txs. induction fuel as [|fuel IH]; intros ds cs txs.
  - destruct ds, cs; simpl; by rewrite ?app_nil_r.
  - destruct ds as [|d ds], cs as [|c cs]; simpl; try by rewrite ?app_nil_r.
    rewrite IH. symmetry. rewrite IH.
    destruct (settleRest fuel _ _ []) as [new|]; simpl; [|done].
    f_equal. destruct (num_pos _); simpl; by rewrite ?app_nil_r, <- ?app_assoc.
Qed.

(** One iteration on positive finite amounts, by the three ways the two
    heads compare. *)
Lemma settleRest_step (fuel : nat) (d c : Party.t) (ds cs : list Party.t) (x y : Z) :
  Party.amount d = Fin x → Party.amount c = Fin y → 0 < x → 0 < y →
  settleRest (S fuel) (d :: ds) (c :: cs) []
  = (Transaction.mk (Party.id d) (Party.id c) (Fin (Z.min x y)) ::.)
    <$> settleRest fuel
          (if decide (x ≤ y) then ds
           else Party.mk (Party.id d) (num_sub (Fin x) (Fin y)) :: ds)
          (if decide (y ≤ x) then cs
           else Party.mk (Party.id c) (num_sub (Fin y) (Fin x)) :: cs)
          [].
Proof.
  intros Hd Hc Hx Hy. cbn [settleRest]. rewrite Hd, Hc. cbn [num_min num_pos].
  rewrite bool_decide_eq_true_2 by lia. cbn [Party.amount Party.id app].
  rewrite settleRest_acc.
  pose proof (num_sub_sign x y) as (_ & _ & Hxy).
  pose proof (num_sub_sign y x) as (_ & _ & Hyx).
  destruct (decide (x ≤ y)) as [Hle|Hle]; destruct (decide (y ≤ x)) as [Hge|Hge];
    try lia.
  - assert (x = y) as -> by lia. rewrite Z.min_id, num_sub_self.
    by rewrite !decide_True by done.
  - rewrite Z.min_l, num_sub_self by lia. rewrite decide_True by done.
    rewrite decide_False; [done|]. rewrite Hyx. lia.
  - rewrite Z.min_r, num_sub_self by lia. rewrite (decide_True (P := Fin 0 = Fin 0)) by done.
    rewrite decide_False; [done|]. rewrite Hxy. lia.
Qed.

Lemma settleRest_Settles (fuel : nat) (ds cs : list Party.t) :
  positive ds → positive cs →
  (length ds + length cs ≤ fuel)%nat →
  ∃ new, settleRest fuel ds cs [] = Some new ∧ Settles ds cs new.
Proof.
  revert ds cs. induction fuel as [|fuel IH]; intros ds cs Hds Hcs Hlen.
  - destruct ds; [|simpl in Hlen; lia].
    exists []. split; [done|constructor].
  - destruct ds as [|d ds]; [exists []; split; [done|constructor]|].
    destruct cs as [|c cs]; [exists []; split; [done|constructor]|].
    apply Forall_cons in Hds as [(x & Hd & Hx) Hds].
    apply Forall_cons in Hcs as [(y & Hc & Hy) Hcs].
    rewrite (settleRest_step _ _ _ _ _ x y) by (done || lia).
    simpl in Hlen.
    edestruct (IH
      (if decide (x ≤ y) then ds
       else Party.mk (Party.id d) (num_sub (Fin x) (Fin y)) :: ds)
      (if decide (y ≤ x) then cs
       else Party.mk (Party.id c) (num_sub (Fin y) (Fin x)) :: cs))
      as (new & Hrun & Hset).
    + case_decide; [done|]. apply Forall_cons. split; [|done].
      apply num_sub_positive; lia.
    + case_decide; [done|]. apply Forall_cons. split; [|done].
      apply num_sub_positive; lia.
    + repeat case_decide; simpl; lia.
    + rewrite Hrun. eexists. split; [done|]. by apply (Settles_step _ _ _ _ _ x y); try lia.
Qed.



(** ** Measures on parties and transactions *)

Lemma total_cons (x : Party.t) (l : list Party.t) :
  total (x :: l) = finiteOrZero (Party.amount x) + total l.
Proof. unfold total. by rewrite fmap_cons, zsum_cons. Qed.

Lemma owed_cons (x : Party.t) (l : list Party.t) (k : string) :
  owed (x :: l) k
  = (if decide (Party.id x = k) then finiteOrZero (Party.amount x) else 0) + owed l k.
Proof.
  unfold owed. rewrite filter_cons.
  case_decide; [by rewrite fmap_cons, zsum_cons|lia].
Qed.

Lemma paid_cons (t : Transaction.t) (l : list Transaction.t) (k : string) :
  paid (t :: l) k = (if decide (Transaction.fromId t = k) then units t else 0) + paid l k.
Proof.
  unfold paid. rewrite filter_cons.
  case_decide; [by rewrite fmap_cons, zsum_cons|lia].
Qed.

Lemma received_cons (t : Transaction.t) (l : list Transaction.t) (k : string) :
  received (t :: l) k
  = (if decide (Transaction.toId t = k) then units t else 0) + received l k.
Proof.
  unfold received. rewrite filter_cons.
  case_decide; [by rewrite fmap_cons, zsum_cons|lia].
Qed.

Lemma settled_cons (t : Transaction.t) (l : list Transaction.t) :
  settled (t :: l) = units t + settled l.
Proof. unfold settled. by rewrite fmap_cons, zsum_cons. Qed.


Lemma total_perm (l1 l2 : list Party.t) : l1 ≡ₚ l2 → total l1 = total l2.
Proof. intros H. unfold total. apply zsum_perm. by rewrite H. Qed.



Lemma settled_perm (l1 l2 : list Transaction.t) : l1 ≡ₚ l2 → settled l1 = settled l2.
Proof. intros H. unfold settled. apply zsum_perm. by rewrite H. Qed.

(** ** The loop in the exact range *)

Lemma gridStep_limit (k : Z) : gridStep k → 2 ^ (53 + k) < overflowAt.
Proof.
  intros [Hk Hk']. unfold overflowAt.
  assert (2 ^ (53 + k) ≤ 2 ^ 2097) by (apply Z.pow_le_mono_r; lia).
  replace (2 ^ 2098) with (2 * 2 ^ 2097) by (by rewrite <- Z.pow_succ_r by lia).
  assert (2 ^ 2044 < 2 ^ 2097) by (apply Z.pow_lt_mono_r; lia). lia.
Qed.

Lemma exactParties_total (k : Z) (l : list Party.t) : exactParties k l → 0 ≤ total l.
Proof.
  induction 1 as [|x l (z & Hx & Hz & _) _ IH]; [done|].
  rewrite total_cons, Hx. simpl. lia.
Qed.


Lemma exactParties_owed (k : Z) (l : list Party.t) (key : string) :
  exactParties k l → 0 ≤ owed l key.
Proof.
  induction 1 as [|x l (z & Hx & Hz & _) _ IH]; [done|].
  rewrite owed_cons, Hx. simpl. case_decide; lia.
Qed.

(** What one iteration leaves of a list in the exact range: the head is
    settled in full, or keeps the exact difference. *)
Lemma exactParties_step (k : Z) (d : Party.t) (ds : list Party.t) (x y : Z) :
  gridStep k →
  exactParties k (d :: ds) →
  Party.amount d = Fin x →
  0 < y → onGrid k y →
  let ds' := if decide (x ≤ y) then ds
             else Party.mk (Party.id d) (num_sub (Fin x) (Fin y)) :: ds in
  exactParties k ds'
  ∧ total ds' = total (d :: ds) - Z.min x y
  ∧ ∀ key, owed ds' key
           = owed (d :: ds) key - (if decide (Party.id d = key) then Z.min x y else 0).
Proof.
  intros Hk Hds Hd Hy Hgy ds'.
  apply Forall_cons in Hds as [(x' & Hd' & Hx & Hgx) Hds].
  rewrite Hd in Hd'. injection Hd' as <-.
  unfold ds'. rewrite total_cons, Hd. cbn [finiteOrZero].
  destruct (decide (x ≤ y)) as [Hle|Hgt].
  - split; [done|]. split; [lia|]. intros key.
    rewrite owed_cons, Hd. cbn [finiteOrZero]. case_decide; lia.
  - rewrite (num_sub_exact k) by (done || lia).
    split; [|split].
    + apply Forall_cons. split; [|done]. exists (x - y).
      split; [done|]. split; [lia|]. apply onGrid_sub; [apply Hk|done..].
    + rewrite total_cons. simpl. lia.
    + intros key. rewrite !owed_cons, Hd. simpl. case_decide; lia.
Qed.

Section SettlesExact.
Context (k : Z) (Hk : gridStep k).

(** The loop moves the smaller of the two totals, and charges nobody
    beyond what they hold in their list. *)
Lemma Settles_bounds (ds cs : list Party.t) (new : list Transaction.t) :
  Settles ds cs new →
  exactParties k ds → exactParties k cs →
  settled new = Z.min (total ds) (total cs)
  ∧ (∀ key, 0 ≤ paid new key ≤ owed ds key ∧ 0 ≤ received new key ≤ owed cs key)
  ∧ Forall (λ t, ∃ z, Transaction.amount t = Fin z ∧ 0 < z ∧ onGrid k z) new.
Proof.
  induction 1 as [cs|ds|d c ds cs new x y Hd Hc Hx Hy Hrun IH]; intros Hds Hcs.
  - split; [|split; [|done]].
    + pose proof (exactParties_total k cs Hcs). unfold settled, total at 1. simpl.
      change (zsum []) with 0. lia.
    + intros key. pose proof (exactParties_owed k cs key Hcs).
      unfold paid, received, owed at 1. simpl. change (zsum []) with 0. lia.
  - split; [|split; [|done]].
    + pose proof (exactParties_total k ds Hds). unfold settled, total at 2. simpl.
      change (zsum []) with 0. lia.
    + intros key. pose proof (exactParties_owed k ds key Hds).
      unfold paid, received, owed at 2. simpl. change (zsum []) with 0. lia.
  - assert (Hgx : onGrid k x ∧ x ≤ 2 ^ (53 + k)).
    { apply Forall_cons in Hds as [(x' & Hd' & Hx' & Hgx) _].
      rewrite Hd in Hd'. injection Hd' as <-. split; [done|lia]. }
    assert (Hgy : onGrid k y ∧ y ≤ 2 ^ (53 + k)).
    { apply Forall_cons in Hcs as [(y' & Hc' & Hy' & Hgy) _].
      rewrite Hc in Hc'. injection Hc' as <-. split; [done|lia]. }
    destruct (exactParties_step k d ds x y) as (Hds' & Htd & Hod); try done; [tauto|].
    destruct (exactParties_step k c cs y x) as (Hcs' & Htc & Hoc); try done; [tauto|].
    destruct (IH Hds' Hcs') as (Hs & Hkey & Hall).
    rewrite Z.min_comm in Htc.
    split; [|split].
    + rewrite settled_cons. unfold units. cbn [Transaction.amount finiteOrZero]. lia.
    + intros key. specialize (Hkey key). specialize (Hod key). specialize (Hoc key).
      rewrite (Z.min_comm y x) in Hoc.
      rewrite paid_cons, received_cons. unfold units.
      cbn [Transaction.amount Transaction.fromId Transaction.toId finiteOrZero].
      repeat case_decide; lia.
    + constructor; [|done]. exists (Z.min x y). split; [done|]. split; [lia|].
      apply onGrid_min; tauto.
Qed.

End SettlesExact.




(** ** [finalSettlement] *)

Lemma filter_none {A} (P : A → Prop) `{∀ x, Decision (P x)} (l : list A) :
  (∀ x, x ∈ l → ¬ P x) → filter P l = [].
Proof.
  induction l as [|x l IH]; intros Hl; [done|].
  rewrite filter_cons, decide_False by (apply Hl; by left).
  apply IH. intros y Hy. apply Hl. by right.
Qed.

Lemma filter_all {A} (P : A → Prop) `{∀ x, Decision (P x)} (l : list A) :
  (∀ x, x ∈ l → P x) → filter P l = l.
Proof.
  induction l as [|x l IH]; intros Hl; [done|].
  rewrite filter_cons, decide_True by (apply Hl; by left).
  f_equal. apply IH. intros y Hy. apply Hl. by right.
Qed.

Lemma debtorsOf_perm (balances : list (string * number)) :
  debtorsOf balances
  ≡ₚ (λ e, Party.mk e.1 (num_neg e.2)) <$> filter (λ e, num_neg0 e.2 = true) balances.
Proof. unfold debtorsOf. apply array_sort_perm. Qed.

Lemma creditorsOf_perm (balances : list (string * number)) :
  creditorsOf balances
  ≡ₚ (λ e, Party.mk e.1 e.2) <$> filter (λ e, num_pos e.2 = true) balances.
Proof. unfold creditorsOf. apply array_sort_perm. Qed.



Lemma finiteEntry_spec (v : number) :
  finiteEntry v = true ↔ ∃ z, v = Fin z ∧ Z.abs z < overflowAt.
Proof.
  destruct v as [z| | |]; simpl.
  - rewrite bool_decide_eq_true. split; [eauto|]. by intros (? & [= <-] & ?).
  - split; [done|]. by intros (? & ? & _).
  - split; [done|]. by intros (? & ? & _).
  - split; [done|]. by intros (? & ? & _).
Qed.

Lemma debtorsOf_positive (balances : list (string * number)) :
  forallb (λ e, finiteEntry e.2) balances = true → positive (debtorsOf balances).
Proof.
  intros Hfin. unfold positive. rewrite debtorsOf_perm.
  apply Forall_fmap, Forall_forall. intros [key v] [He Hin]%list_elem_of_filter.
  rewrite forallb_forall in Hfin. apply list_elem_of_In, Hfin in Hin.
  apply finiteEntry_spec in Hin as (z & Hz & Hlt). simpl in *. subst v.
  exists (- z). split; [done|]. simpl in He. apply bool_decide_eq_true in He. lia.
Qed.

Lemma creditorsOf_positive (balances : list (string * number)) :
  forallb (λ e, finiteEntry e.2) balances = true → positive (creditorsOf balances).
Proof.
  intros Hfin. unfold positive. rewrite creditorsOf_perm.
  apply Forall_fmap, Forall_forall. intros [key v] [He Hin]%list_elem_of_filter.
  rewrite forallb_forall in Hfin. apply list_elem_of_In, Hfin in Hin.
  apply finiteEntry_spec in Hin as (z & Hz & Hlt). simpl in *. subst v.
  exists z. split; [done|]. simpl in He. apply bool_decide_eq_true in He. lia.
Qed.

(** On finite balances the loop runs to completion on the fuel that
    [finalSettlement] gives it. *)
Lemma finalSettlement_Settles (balances : list (string * number)) :
  forallb (λ e, finiteEntry e.2) balances = true →
  ∃ new, finalSettlement balances = Some (array_sort byAmountDesc new)
         ∧ Settles (debtorsOf balances) (creditorsOf balances) new.
Proof.
  intros Hfin. unfold finalSettlement. cbv zeta. rewrite settleLoop_rest, !drop_0.
  destruct (settleRest_Settles
    (length (debtorsOf balances) + length (creditorsOf balances))
    (debtorsOf balances) (creditorsOf balances)) as (new & Hrun & Hset);
    [by apply debtorsOf_positive|by apply creditorsOf_positive|done|].
  exists new. by rewrite Hrun.
Qed.

Lemma elem_of_kept (P : Prop) `{Decision P} (x : Party.t) (l : list Party.t)
    (k : string) :
  k ∈ Party.id <$> (if decide P then l else x :: l) →
  k = Party.id x ∨ k ∈ Party.id <$> l.
Proof. case_decide; rewrite ?fmap_cons, ?elem_of_cons; tauto. Qed.

(** Whatever the amounts, the loop only pairs ids of the two lists. *)
Lemma settleRest_ids (fuel : nat) (ds cs : list Party.t) (txs out : list Transaction.t) :
  settleRest fuel ds cs txs = Some out →
  Forall (λ t, t ∈ txs
               ∨ (Transaction.fromId t ∈ Party.id <$> ds
                  ∧ Transaction.toId t ∈ Party.id <$> cs)) out.
Proof.
  revert ds cs txs. induction fuel as [|fuel IH]; intros ds cs txs.
  - destruct ds as [|d ds]; [|destruct cs as [|c cs]]; simpl; try done;
      intros [= <-]; apply Forall_forall; by left.
  - destruct ds as [|d ds]; [simpl; intros [= <-]; apply Forall_forall; by left|].
    destruct cs as [|c cs]; [simpl; intros [= <-]; apply Forall_forall; by left|].
    cbn [settleRest]. intros Hrun. apply IH in Hrun.
    eapply Forall_impl; [exact Hrun|]. clear Hrun IH. intros t.
    rewrite !fmap_cons, !elem_of_cons.
    intros [Ht|[Hfrom Hto]].
    + destruct (num_pos _); [|by left].
      apply elem_of_app in Ht as [Ht| ->%list_elem_of_singleton]; [by left|].
      right. simpl. by split; left.
    + right. apply elem_of_kept in Hfrom, Hto.
      destruct (num_pos _); simpl in Hfrom, Hto; tauto.
Qed.

(** Every transaction goes from a key with a negative entry to a key with
    a positive entry. *)
Lemma finalSettlement_ids (balances : list (string * number))
    (settlement : list Transaction.t) :
  finalSettlement balances = Some settlement →
  Forall (λ t, (∃ v, (Transaction.fromId t, v) ∈ balances ∧ num_neg0 v = true)
               ∧ (∃ v, (Transaction.toId t, v) ∈ balances ∧ num_pos v = true))
    settlement.
Proof.
  unfold finalSettlement. cbv zeta. rewrite settleLoop_rest, !drop_0.
  destruct (settleRest _ _ _ []) as [out|] eqn:Hrun; [|done].
  intros [= <-]. apply settleRest_ids in Hrun.
  rewrite array_sort_perm. eapply Forall_impl; [exact Hrun|]. intros t.
  intros [Ht|[Hfrom Hto]]; [by apply elem_of_nil in Ht|].
  rewrite debtorsOf_perm, <- list_fmap_compose in Hfrom.
  rewrite creditorsOf_perm, <- list_fmap_compose in Hto.
  apply list_elem_of_fmap in Hfrom as ([k1 v1] & -> & [H1 Hin1]%list_elem_of_filter).
  apply list_elem_of_fmap in Hto as ([k2 v2] & -> & [H2 Hin2]%list_elem_of_filter).
  simpl in *. split; [exists v1|exists v2]; done.
Qed.



Lemma debt_units (v : number) :
  (if decide (num_neg0 v = true) then finiteOrZero (num_neg v) else 0)
  = Z.max 0 (- finiteOrZero v).
Proof.
  destruct v as [z| | |]; simpl; try done.
  case_bool_decide; [rewrite decide_True by done|rewrite decide_False by done]; lia.
Qed.

Lemma credit_units (v : number) :
  (if decide (num_pos v = true) then finiteOrZero v else 0) = Z.max 0 (finiteOrZero v).
Proof.
  destruct v as [z| | |]; simpl; try done.
  case_bool_decide; [rewrite decide_True by done|rewrite decide_False by done]; lia.
Qed.

Lemma total_debtorsOf (b : list (string * number)) :
  total (debtorsOf b) = zsum ((λ e, Z.max 0 (- finiteOrZero e.2)) <$> b).
Proof.
  rewrite (total_perm _ _ (debtorsOf_perm b)).
  induction b as [|[k v] b IH]; [done|].
  rewrite filter_cons, fmap_cons, zsum_cons. cbn [snd]. rewrite <- (debt_units v).
  destruct (decide (num_neg0 v = true));
    rewrite ?fmap_cons, ?total_cons; cbn [fst snd Party.id Party.amount]; lia.
Qed.

Lemma total_creditorsOf (b : list (string * number)) :
  total (creditorsOf b) = zsum ((λ e, Z.max 0 (finiteOrZero e.2)) <$> b).
Proof.
  rewrite (total_perm _ _ (creditorsOf_perm b)).
  induction b as [|[k v] b IH]; [done|].
  rewrite filter_cons, fmap_cons, zsum_cons. cbn [snd]. rewrite <- (credit_units v).
  destruct (decide (num_pos v = true));
    rewrite ?fmap_cons, ?total_cons; cbn [fst snd Party.id Party.amount]; lia.
Qed.

Lemma exactEntry_spec (k : Z) (v : number) :
  exactEntry k v = true ↔ ∃ z, v = Fin z ∧ onGrid k z ∧ Z.abs z ≤ 2 ^ (53 + k).
Proof.
  destruct v as [z| | |]; simpl.
  - rewrite andb_true_iff, !bool_decide_eq_true. split; [eauto|].
    by intros (? & [= <-] & ?).
  - split; [done|]. by intros (? & ? & _).
  - split; [done|]. by intros (? & ? & _).
  - split; [done|]. by intros (? & ? & _).
Qed.

Lemma exactBalances_spec (k : Z) (balances : list (string * number)) :
  exactBalances k balances = true ↔
  gridStep k
  ∧ ∀ key v, (key, v) ∈ balances → ∃ z, v = Fin z ∧ onGrid k z ∧ Z.abs z ≤ 2 ^ (53 + k).
Proof.
  unfold exactBalances. rewrite andb_true_iff, bool_decide_eq_true, forallb_forall.
  split; intros [Hk H]; (split; [done|]).
  - intros key v Hin. apply exactEntry_spec. by apply (H (key, v)), list_elem_of_In.
  - intros [key v] Hin. apply exactEntry_spec, (H key). by apply list_elem_of_In.
Qed.

Lemma exactBalances_finite (k : Z) (balances : list (string * number)) :
  exactBalances k balances = true → forallb (λ e, finiteEntry e.2) balances = true.
Proof.
  intros [Hk H]%exactBalances_spec. apply forallb_forall. intros [key v] Hin.
  apply list_elem_of_In, H in Hin as (z & -> & _ & Hz). simpl.
  apply bool_decide_eq_true. pose proof (gridStep_limit k Hk). lia.
Qed.

Lemma exactBalances_debtors (k : Z) (balances : list (string * number)) :
  exactBalances k balances = true → exactParties k (debtorsOf balances).
Proof.
  intros [Hk H]%exactBalances_spec. unfold exactParties. rewrite debtorsOf_perm.
  apply Forall_fmap, Forall_forall. intros [key v] [He Hin]%list_elem_of_filter.
  apply H in Hin as (z & -> & Hg & Hz). simpl in *. apply bool_decide_eq_true in He.
  exists (- z). split; [done|]. split; [lia|]. apply onGrid_opp; [apply Hk|done].
Qed.

Lemma exactBalances_creditors (k : Z) (balances : list (string * number)) :
  exactBalances k balances = true → exactParties k (creditorsOf balances).
Proof.
  intros [Hk H]%exactBalances_spec. unfold exactParties. rewrite creditorsOf_perm.
  apply Forall_fmap, Forall_forall. intros [key v] [He Hin]%list_elem_of_filter.
  apply H in Hin as (z & -> & Hg & Hz). simpl in *. apply bool_decide_eq_true in He.
  exists z. split; [done|]. split; [lia|done].
Qed.



(** ** Where the ids of the debt items come from *)

Lemma debtsPlayer_ids (idx : nat) (round : GameRound.t) (p : Player.t) (d : DebtItem.t) :
  d ∈ debtsPlayer idx round [] p →
  DebtItem.roundIndex d = (idx + 1)%nat
  ∧ DebtItem.bankerId d = GameRound.bankerId round
  ∧ Player.id p ≠ GameRound.bankerId round
  ∧ (DebtItem.fromId d = GameRound.bankerId round ∧ DebtItem.toId d = Player.id p
     ∨ DebtItem.fromId d = Player.id p ∧ DebtItem.toId d = GameRound.bankerId round)
  ∧ ∃ z, DebtItem.amount d = Fin z ∧ 0 < z.
Proof.
  rewrite debtsPlayer_cases.
  repeat case_decide; rewrite ?elem_of_nil, ?list_elem_of_singleton; try done;
    intros ->; simpl; (repeat split; [done|tauto|eexists; split; [done|lia]]).
Qed.

Lemma debtsByRound_ids (players : list Player.t) (rounds : list GameRound.t) (d : DebtItem.t) :
  d ∈ debtsByRound players rounds →
  ∃ idx round p,
    rounds !! idx = Some round ∧ p ∈ players
    ∧ GameRound.bankerId round ≠ EmptyString
    ∧ d ∈ debtsPlayer idx round [] p.
Proof.
  rewrite debtsByRound_mjoin. intros Hd.
  apply list_elem_of_join in Hd as (items & Hd & Hitems).
  apply elem_of_lookup_imap in Hitems as (idx & round & -> & Hround).
  rewrite debtsRound_nil in Hd. case_decide as Hb; [by apply elem_of_nil in Hd|].
  apply list_elem_of_join in Hd as (items & Hd & Hitems).
  apply list_elem_of_fmap in Hitems as (p & -> & Hp).
  eauto 10.
Qed.

(** The items of a round found in the ledger *)
Lemma debtsByRound_round (players : list Player.t) (rounds : list GameRound.t)
    (idx : nat) (round : GameRound.t) (p : Player.t) (d : DebtItem.t) :
  rounds !! idx = Some round →
  GameRound.bankerId round ≠ EmptyString →
  p ∈ players →
  d ∈ debtsPlayer idx round [] p →
  d ∈ debtsByRound players rounds.
Proof.
  intros Hr Hb Hp Hd. rewrite debtsByRound_mjoin.
  apply list_elem_of_join. exists (debtsRound players [] round idx). split.
  - rewrite debtsRound_nil, decide_False by done.
    apply list_elem_of_join. exists (debtsPlayer idx round [] p).
    split; [done|]. apply list_elem_of_fmap. eauto.
  - apply elem_of_lookup_imap. eauto.
Qed.

(** ** [removePlayer] *)

Lemma removeFromRound_banker (id : string) (r : GameRound.t) :
  GameRound.bankerId (removeFromRound id r) = EmptyString
  ∨ GameRound.bankerId (removeFromRound id r) ≠ id.
Proof.
  unfold removeFromRound. simpl. case_decide; [by left|by right].
Qed.

Lemma removePlayer_ids (id k : string) (players : list Player.t) :
  k ∈ Player.id <$> filter (λ p, Player.id p ≠ id) players
  ↔ k ≠ id ∧ k ∈ Player.id <$> players.
Proof.
  rewrite !list_elem_of_fmap. split.
  - intros (p & -> & [Hne Hp]%list_elem_of_filter). eauto.
  - intros (Hne & p & -> & Hp). exists p. split; [done|].
    by apply list_elem_of_filter.
Qed.

(** A player without entry in a round adds nothing to the sum of the
    participants. *)
Lemma sumParticipants_without (id : string) (players : list Player.t) (r : GameRound.t) :
  GameRound.values r !! id = None →
  sumParticipants (filter (λ p, Player.id p ≠ id) players) r = sumParticipants players r.
Proof.
  intros Hid. unfold sumParticipants. generalize (Fin 0).
  induction players as [|p players IH]; intros a; [done|].
  rewrite !filter_cons.
  destruct (decide (Player.id p ≠ id)) as [Hp|Hp].
  - rewrite filter_cons. case_decide; [cbn [fold_left]|]; apply IH.
  - apply dec_stable in Hp.
    destruct (decide (Player.id p ≠ GameRound.bankerId r)); [|apply IH].
    cbn [fold_left]. rewrite Hp, Hid. cbn [orZero default from_option].
    rewrite num_add_0_r. apply IH.
Qed.

(** After the removal the removed player is no longer read: the roster
    without the player gives what the old roster gives. *)
Lemma contribution_removed (id q : string) (players : list Player.t) (r : GameRound.t) :
  contribution (filter (λ p, Player.id p ≠ id) players) (removeFromRound id r) q
  = contribution players (removeFromRound id r) q.
Proof.
  unfold contribution. case_decide; [done|].
  unfold normalized, finalValues.
  rewrite sumParticipants_without; [done|].
  unfold removeFromRound. simpl. apply lookup_delete_eq.
Qed.

(** Removing a player leaves untouched what a round adds to another
    player, unless one of the two is the banker of the round. *)
Lemma contribution_untouched (id q : string) (players : list Player.t) (r : GameRound.t) :
  q ≠ id →
  GameRound.bankerId r ≠ id →
  GameRound.bankerId r ≠ q →
  contribution players (removeFromRound id r) q = contribution players r q.
Proof.
  intros Hq Hb Hbq. unfold contribution, removeFromRound. simpl.
  rewrite (decide_False (P := GameRound.bankerId r = id)) by done.
  case_decide; [done|].
  unfold normalized, finalValues. simpl.
  rewrite !lookup_insert_ne by done.
  by rewrite lookup_delete_ne.
Qed.

(** ** Renumbering the debt items *)

Lemma debtsPlayer_fmap (g : DebtItem.t → DebtItem.t) (idx idx' : nat)
    (round : GameRound.t) (p : Player.t) :
  (∀ d, DebtItem.roundIndex d = (idx + 1)%nat → g d = withRoundIndex (idx' + 1) d) →
  g <$> debtsPlayer idx round [] p = debtsPlayer idx' round [] p.
Proof.
  intros Hg. rewrite !debtsPlayer_cases.
  repeat case_decide; simpl; try done; by rewrite Hg.
Qed.

Lemma debtsRound_fmap (g : DebtItem.t → DebtItem.t) (idx idx' : nat)
    (players : list Player.t) (round : GameRound.t) :
  (∀ d, DebtItem.roundIndex d = (idx + 1)%nat → g d = withRoundIndex (idx' + 1) d) →
  g <$> debtsRound players [] round idx = debtsRound players [] round idx'.
Proof.
  intros Hg. rewrite !debtsRound_nil. case_decide; [done|].
  induction players as [|p players IH]; [done|].
  rewrite !fmap_cons. simpl. rewrite fmap_app, IH.
  by rewrite (debtsPlayer_fmap g idx idx').
Qed.

Lemma fmap_mjoin {A B} (g : A → B) (ls : list (list A)) :
  g <$> mjoin ls = mjoin (fmap g <$> ls).
Proof.
  induction ls as [|l ls IH]; [done|].
  simpl. by rewrite fmap_app, IH.
Qed.

Lemma renumber_before (n idx : nat) (d : DebtItem.t) :
  (idx < n)%nat → DebtItem.roundIndex d = (idx + 1)%nat →
  renumber n d = withRoundIndex (idx + 1) d.
Proof.
  intros Hlt Hd. unfold renumber. rewrite decide_False by lia.
  destruct d. simpl in Hd. by subst.
Qed.

Lemma renumber_after (n idx : nat) (d : DebtItem.t) :
  (n ≤ idx)%nat → DebtItem.roundIndex d = (S idx + 1)%nat →
  renumber n d = withRoundIndex (idx + 1) d.
Proof.
  intros Hlt Hd. unfold renumber. rewrite decide_True by lia.
  rewrite Hd. f_equal. lia.
Qed.

Lemma debtsByRound_without_idle (players : list Player.t)
    (rounds1 rounds2 : list GameRound.t) (round : GameRound.t) :
  GameRound.bankerId round = EmptyString →
  debtsByRound players (rounds1 ++ rounds2)
  = renumber (length rounds1) <$> debtsByRound players (rounds1 ++ round :: rounds2).
Proof.
  intros Hb. rewrite !debtsByRound_mjoin, !imap_app, !join_app, fmap_app.
  simpl. rewrite (debtsRound_nil _ round), decide_True by done. simpl.
  rewrite !fmap_mjoin, !fmap_imap. f_equal; f_equal.
  - apply imap_ext. intros i r Hi. simpl. symmetry.
    apply debtsRound_fmap. intros d. apply renumber_before.
    by apply lookup_lt_Some in Hi.
  - apply imap_ext. intros i r Hi. simpl. symmetry.
    apply debtsRound_fmap. intros d Hd.
    rewrite (renumber_after _ (length rounds1 + i)); [done|lia|].
    rewrite Hd. lia.
Qed.

(** * The claims *)



(** ** C9 — round order *)




(** ** C2 — zero-sum rounds *)




(** ** C3 — balance conservation *)




(** ** C7 — a banker who is on no roster *)

(** C7, as stated, fails: the round of the unknown banker X adds the
    entered 5 to the balance of A. *)
Lemma unknown_banker_round_counts :
  GameRound.bankerId roundX ≠ EmptyString
  ∧ (GameRound.bankerId roundX ∉ Player.id <$> [pA; pB])
  ∧ balanceOf (totals [pA; pB] [roundX]) "A" = ofInt 5
  ∧ balanceOf (totals [pA; pB] []) "A" = ofInt 0.
Proof.
  split; [done|]. split; [|split; vm_compute; reflexivity].
  apply (bool_decide_unpack _). vm_compute. exact I.
Qed.

(** C7, amended.  A round whose bankerId is non-empty but matches no
    roster player, added at the end of the round list, adds to the
    Balance of every roster player that player's own recorded value (0
    when missing or non-finite), by one addition of doubles; only the
    banker's offsetting entry is lost. *)
Theorem unknown_banker_round (players : list Player.t) (round : GameRound.t)
    (rounds : list GameRound.t) (k : string) :
  GameRound.bankerId round ≠ EmptyString →
  GameRound.bankerId round ∉ Player.id <$> players →
  k ∈ Player.id <$> players →
  balanceOf (totals players (rounds ++ [round])) k
  = num_add (balanceOf (totals players rounds) k) (Fin (recorded round k)).
Proof.
  intros Hset Hb Hk. rewrite !balanceOf_totals, !decide_True by done.
  rewrite fmap_app. cbn [fmap list_fmap]. rewrite accumulate_snoc.
  rewrite contribution_other; [done|done|]. intros ->. done.
Qed.

Lemma unknown_banker_round_witness :
  GameRound.bankerId roundX ≠ EmptyString
  ∧ (GameRound.bankerId roundX ∉ Player.id <$> [pA; pB; pC])
  ∧ ("A" ∈ Player.id <$> [pA; pB; pC])
  ∧ (balanceOf (totals [pA; pB; pC] ([round1; round2] ++ [roundX])) "A"
     = num_add (balanceOf (totals [pA; pB; pC] [round1; round2]) "A")
         (Fin (recorded roundX "A"))).
Proof.
  assert (H1 : GameRound.bankerId roundX ≠ EmptyString) by done.
  assert (H2 : GameRound.bankerId roundX ∉ Player.id <$> [pA; pB; pC]).
  { apply (bool_decide_unpack _). vm_compute. exact I. }
  assert (H3 : "A" ∈ Player.id <$> [pA; pB; pC]).
  { apply (bool_decide_unpack _). vm_compute. exact I. }
  split; [exact H1|]. split; [exact H2|]. split; [exact H3|].
  exact (unknown_banker_round [pA; pB; pC] roundX [round1; round2] "A" H1 H2 H3).
Defined.

(** ** C8 — entries that are not numbers *)

(** C8: the aggregator evaluated on a round with a [NaN] entry, and on the
    same round with that entry replaced by 0.  The [NaN] reaches
    [sumParticipants] unguarded, the banker's implied value becomes [NaN]
    and is then counted as 0: the banker A ends at 0 instead of -5, and
    the balances no longer add up to 0.  [debtsByRound] on the same two
    rounds does read the [NaN] as 0: it has A pay 5 to C either way. *)
Theorem nonfinite_entry_changes_banker :
  zeroNonFinite roundNaN
  = GameRound.mk "r4" "A" (<["B" := ofInt 0]> (<["C" := ofInt 5]> ∅))
  ∧ totals [pA; pB; pC] [roundNaN] = [("A", ofInt 0); ("B", ofInt 0); ("C", ofInt 5)]
  ∧ totals [pA; pB; pC] [zeroNonFinite roundNaN]
    = [("A", ofInt (-5)); ("B", ofInt 0); ("C", ofInt 5)]
  ∧ debtsByRound [pA; pB; pC] [roundNaN] = [DebtItem.mk 1 "A" "A" "C" (ofInt 5)]
  ∧ debtsByRound [pA; pB; pC] [zeroNonFinite roundNaN]
    = [DebtItem.mk 1 "A" "A" "C" (ofInt 5)].
Proof.
  split; [|split; [|split; [|split]]]; vm_compute; reflexivity.
Qed.

(** ** C5 — the debt expander *)

(** C5.  [debtsByRound] is the concatenation, in round order, of what each
    round with a banker emits, which is the concatenation, in roster
    order, of what each player emits; a non-banker player with a finite
    non-zero recorded value [v] emits exactly one item of amount [|v|],
    from the banker to the player when [v > 0] and from the player to the
    banker when [v < 0]; the banker, and a player whose value is zero,
    missing or non-finite, emits nothing. *)
Theorem debtsByRound_contract (players : list Player.t) (rounds : list GameRound.t) :
  debtsByRound players rounds
  = mjoin (imap (λ idx round,
      if decide (GameRound.bankerId round = EmptyString) then []
      else mjoin ((λ p, debtsPlayer idx round [] p) <$> players)) rounds)
  ∧ (∀ idx round p v,
       Player.id p ≠ GameRound.bankerId round →
       GameRound.values round !! Player.id p = Some (Fin v) →
       0 < v →
       debtsPlayer idx round [] p
       = [DebtItem.mk (idx + 1) (GameRound.bankerId round)
            (GameRound.bankerId round) (Player.id p) (Fin (Z.abs v))])
  ∧ (∀ idx round p v,
       Player.id p ≠ GameRound.bankerId round →
       GameRound.values round !! Player.id p = Some (Fin v) →
       v < 0 →
       debtsPlayer idx round [] p
       = [DebtItem.mk (idx + 1) (GameRound.bankerId round)
            (Player.id p) (GameRound.bankerId round) (Fin (Z.abs v))])
  ∧ (∀ idx round p,
       Player.id p = GameRound.bankerId round
       ∨ GameRound.values round !! Player.id p = None
       ∨ GameRound.values round !! Player.id p = Some (Fin 0)
       ∨ (∃ v, GameRound.values round !! Player.id p = Some v ∧ isFinite v = false) →
       debtsPlayer idx round [] p = []).
Proof.
  split; [|split; [|split]].
  - rewrite debtsByRound_mjoin. f_equal. apply imap_ext. intros idx round _.
    apply debtsRound_nil.
  - intros idx round p v Hp Hv Hpos. rewrite debtsPlayer_cases. unfold recorded.
    rewrite decide_False, Hv by done. simpl.
    rewrite decide_True by lia. by rewrite Z.abs_eq by lia.
  - intros idx round p v Hp Hv Hneg. rewrite debtsPlayer_cases. unfold recorded.
    rewrite decide_False, Hv by done. simpl.
    rewrite decide_False, decide_True by lia. by rewrite Z.abs_neq by lia.
  - intros idx round p H. unfold debtsPlayer.
    destruct H as [H|[H|[H|(v & H & Hv)]]].
    + by rewrite decide_True.
    + case_decide; [done|]. by rewrite H.
    + case_decide; [done|]. by rewrite H.
    + case_decide; [done|]. rewrite H. simpl. by rewrite Hv.
Qed.

(** ** C10 — rounds without banker *)

(** C10, as stated, fails for the DebtItem sequence: the items carry the
    1-based position of their round, and removing the idle round in front
    of [round1] renumbers its items from 2 to 1. *)
Lemma idle_round_renumbers_debts :
  GameRound.bankerId roundIdle = EmptyString
  ∧ debtsByRound [pA; pB; pC] [roundIdle; round1]
    = [DebtItem.mk 2 "A" "A" "B" (ofInt 50); DebtItem.mk 2 "A" "C" "A" (ofInt 20)]
  ∧ debtsByRound [pA; pB; pC] [round1]
    = [DebtItem.mk 1 "A" "A" "B" (ofInt 50); DebtItem.mk 1 "A" "C" "A" (ofInt 20)].
Proof. split; [done|]. split; vm_compute; reflexivity. Qed.

(** C10, amended.  Removing a round whose bankerId is empty leaves every
    Balance and the Settlement output unchanged, whatever values the round
    holds; the DebtItem sequence stays the same except that the items of
    the later rounds carry a roundIndex lower by one. *)
Theorem idle_round_removed (players : list Player.t) (round : GameRound.t)
    (rounds1 rounds2 : list GameRound.t) :
  GameRound.bankerId round = EmptyString →
  totals players (rounds1 ++ rounds2) = totals players (rounds1 ++ round :: rounds2)
  ∧ finalSettlement (totals players (rounds1 ++ rounds2))
    = finalSettlement (totals players (rounds1 ++ round :: rounds2))
  ∧ debtsByRound players (rounds1 ++ rounds2)
    = renumber (length rounds1) <$> debtsByRound players (rounds1 ++ round :: rounds2).
Proof.
  intros Hb.
  assert (Ht : totals players (rounds1 ++ rounds2)
               = totals players (rounds1 ++ round :: rounds2)).
  { unfold totals. rewrite !fold_left_app. cbn [fold_left]. f_equal.
    unfold totalsRound. by rewrite decide_True. }
  split; [exact Ht|]. split; [by rewrite Ht|].
  by apply debtsByRound_without_idle.
Qed.

Lemma idle_round_removed_witness :
  GameRound.bankerId roundIdle = EmptyString
  ∧ totals [pA; pB; pC] ([round2] ++ [round1])
    = totals [pA; pB; pC] ([round2] ++ roundIdle :: [round1])
  ∧ finalSettlement (totals [pA; pB; pC] ([round2] ++ [round1]))
    = finalSettlement (totals [pA; pB; pC] ([round2] ++ roundIdle :: [round1]))
  ∧ debtsByRound [pA; pB; pC] ([round2] ++ [round1])
    = renumber (length [round2])
        <$> debtsByRound [pA; pB; pC] ([round2] ++ roundIdle :: [round1]).
Proof.
  split; [reflexivity|].
  apply (idle_round_removed [pA; pB; pC] roundIdle [round2] [round1]).
  reflexivity.
Defined.

(** ** C6 — removing a player *)

(** C6, as stated, fails for the banker of a round the removed player took
    part in: B is banker of no round, yet removing B moves the balance of
    the banker A from -30 to 20, because A's implied value no longer
    offsets B's entry. *)
Lemma removal_changes_banker_balance :
  "A" ≠ "B"
  ∧ (∀ r, r ∈ rounds (mkState [pA; pB; pC] [round1]) → GameRound.bankerId r ≠ "B")
  ∧ balanceOf (stTotals (mkState [pA; pB; pC] [round1])) "A" = ofInt (-30)
  ∧ balanceOf (stTotals (removePlayer "B" (mkState [pA; pB; pC] [round1]))) "A"
    = ofInt 20.
Proof.
  split; [done|]. split; [|split; vm_compute; reflexivity].
  intros r ->%list_elem_of_singleton. done.
Qed.

(** C6, amended.  After [removePlayer id] the id appears in no Balance,
    in no DebtItem and in no Settlement Transaction.  The Balance of a
    remaining player [q] changes only through the rounds whose banker is
    the removed player (they stop counting) or [q] itself (the banker's
    implied value no longer offsets the removed player's entries): it is
    the Balance that the old roster gives when only those rounds are
    edited, and it is unchanged when there is no such round. *)
Theorem removePlayer_cascade (id : string) (st : State) :
  (id ∉ (stTotals (removePlayer id st)).*1)
  ∧ (∀ d, d ∈ stDebts (removePlayer id st) →
       DebtItem.bankerId d ≠ id ∧ DebtItem.fromId d ≠ id ∧ DebtItem.toId d ≠ id)
  ∧ (∀ settlement t,
       stSettlement (removePlayer id st) = Some settlement → t ∈ settlement →
       Transaction.fromId t ≠ id ∧ Transaction.toId t ≠ id)
  ∧ (∀ q, q ≠ id →
       balanceOf (stTotals (removePlayer id st)) q
       = balanceOf
           (totals (players st)
              ((λ r, if decide (GameRound.bankerId r = id ∨ GameRound.bankerId r = q)
                     then removeFromRound id r else r) <$> rounds st)) q)
  ∧ (∀ q, q ≠ id →
       (∀ r, r ∈ rounds st → GameRound.bankerId r ≠ id ∧ GameRound.bankerId r ≠ q) →
       balanceOf (stTotals (removePlayer id st)) q = balanceOf (stTotals st) q).
Proof.
  assert (Hkeys : id ∉ (stTotals (removePlayer id st)).*1).
  { unfold stTotals, removePlayer. simpl.
    rewrite totals_keys, initAcc_keys, removePlayer_ids. tauto. }
  assert (Hframe : ∀ q, q ≠ id →
    balanceOf (stTotals (removePlayer id st)) q
    = balanceOf
        (totals (players st)
           ((λ r, if decide (GameRound.bankerId r = id ∨ GameRound.bankerId r = q)
                  then removeFromRound id r else r) <$> rounds st)) q).
  { intros q Hq. unfold stTotals, removePlayer. cbn [players rounds].
    rewrite !balanceOf_totals.
    destruct (decide (q ∈ Player.id <$> players st)) as [Hin|Hin].
    - rewrite decide_True by (by apply removePlayer_ids).
      rewrite <- !list_fmap_compose. f_equal. apply list_fmap_ext.
      intros i r _. cbn [compose]. rewrite contribution_removed.
      case_decide as Hr; [done|]. apply contribution_untouched; [done|tauto..].
    - rewrite decide_False; [done|]. rewrite removePlayer_ids. tauto. }
  split; [exact Hkeys|]. split; [|split; [|split; [exact Hframe|]]].
  - intros d Hd. unfold stDebts, removePlayer in Hd. simpl in Hd.
    apply debtsByRound_ids in Hd as (idx & r' & p & Hr' & Hp & Hset & Hd).
    apply list_lookup_fmap_Some in Hr' as (r & -> & Hr).
    apply list_elem_of_filter in Hp as [Hp _].
    apply debtsPlayer_ids in Hd as (_ & Hb & _ & Hdir & _).
    assert (Hbanker : GameRound.bankerId (removeFromRound id r) ≠ id).
    { destruct (removeFromRound_banker id r) as [He|Hne]; [done|done]. }
    rewrite Hb. split; [done|].
    destruct Hdir as [[-> ->]|[-> ->]]; done.
  - intros settlement t Hfs Ht.
    pose proof (finalSettlement_ids _ _ Hfs) as Hids.
    rewrite Forall_forall in Hids.
    destruct (Hids t Ht) as [(v1 & Hfrom & _) (v2 & Hto & _)].
    split; intros Heq; apply Hkeys; apply list_elem_of_fmap;
      [exists (Transaction.fromId t, v1)|exists (Transaction.toId t, v2)];
      (split; [by rewrite Heq|done]).
  - intros q Hq Hnone. rewrite (Hframe q Hq). unfold stTotals. do 2 f_equal.
    rewrite <- (list_fmap_id (rounds st)) at 2. apply list_fmap_ext.
    intros i r Hr. rewrite decide_False; [done|].
    apply list_elem_of_lookup_2, Hnone in Hr. tauto.
Qed.

(** ** C4 — the settlement minimizer *)




(** ** C1 — settlement closure *)







(** * Further properties *)

(** ** The engine reads the roster through the ids only *)

Lemma same_ids_Forall2 (ps qs : list Player.t) :
  Player.id <$> ps = Player.id <$> qs →
  Forall2 (λ p q, Player.id p = Player.id q) ps qs.
Proof.
  revert qs. induction ps as [|p ps IH]; intros [|q qs] Heq;
    rewrite ?fmap_cons, ?fmap_nil in Heq; try discriminate Heq.
  - constructor.
  - injection Heq as Hp Hrest. constructor; [done|by apply IH].
Qed.

Lemma initAcc_same_ids (ps qs : list Player.t) :
  Player.id <$> ps = Player.id <$> qs → initAcc ps = initAcc qs.
Proof.
  intros H%same_ids_Forall2. unfold initAcc. generalize (@nil (string * number)).
  induction H as [|p q ps qs Hpq _ IH]; intros acc; simpl; [done|].
  by rewrite Hpq, IH.
Qed.

Lemma sumParticipants_same_ids (ps qs : list Player.t) (round : GameRound.t) :
  Player.id <$> ps = Player.id <$> qs →
  sumParticipants ps round = sumParticipants qs round.
Proof.
  intros H%same_ids_Forall2. unfold sumParticipants. generalize (Fin 0).
  induction H as [|p q ps qs Hpq _ IH]; intros a; [done|].
  rewrite !filter_cons, <- Hpq.
  case_decide; cbn [fold_left]; by rewrite ?Hpq, IH.
Qed.

Lemma totals_same_ids (ps qs : list Player.t) (rounds : list GameRound.t) :
  Player.id <$> ps = Player.id <$> qs → totals ps rounds = totals qs rounds.
Proof.
  intros H. unfold totals. rewrite (initAcc_same_ids ps qs H).
  generalize (initAcc qs).
  induction rounds as [|r rounds IH]; intros acc; simpl; [done|].
  rewrite IH. f_equal. unfold totalsRound, finalValues.
  by rewrite (sumParticipants_same_ids ps qs r H).
Qed.

Lemma debtsByRound_same_ids (ps qs : list Player.t) (rounds : list GameRound.t) :
  Player.id <$> ps = Player.id <$> qs → debtsByRound ps rounds = debtsByRound qs rounds.
Proof.
  intros H%same_ids_Forall2. rewrite !debtsByRound_mjoin. f_equal.
  apply imap_ext. intros idx r _. simpl. rewrite !debtsRound_nil.
  case_decide; [done|]. f_equal.
  induction H as [|p q ps qs Hpq _ IH]; [done|].
  rewrite !fmap_cons, IH. f_equal. unfold debtsPlayer. by rewrite Hpq.
Qed.

Lemma renamePlayer_ids (id name : string) (st : State) :
  Player.id <$> players (renamePlayer id name st) = Player.id <$> players st.
Proof.
  unfold renamePlayer. simpl. rewrite <- list_fmap_compose.
  apply list_fmap_ext. intros i p _. simpl. by case_decide.
Qed.

(** X1.  Renaming a player changes no Balance, no DebtItem and no
    Settlement Transaction: the engine identifies players by id. *)
Theorem renamePlayer_outputs (id name : string) (st : State) :
  stTotals (renamePlayer id name st) = stTotals st
  ∧ stDebts (renamePlayer id name st) = stDebts st
  ∧ stSettlement (renamePlayer id name st) = stSettlement st.
Proof.
  assert (Ht : stTotals (renamePlayer id name st) = stTotals st).
  { apply totals_same_ids, renamePlayer_ids. }
  split; [exact Ht|]. split.
  - apply debtsByRound_same_ids, renamePlayer_ids.
  - unfold stSettlement. by rewrite Ht.
Qed.

(** ** [nameById] and [renamePlayer] *)

Lemma nameById_cons (p : Player.t) (ps : list Player.t) (k : string) :
  nameById (p :: ps) k
  = if decide (Player.id p = k) then Player.name p else nameById ps k.
Proof.
  unfold nameById. simpl. case_bool_decide; by case_decide.
Qed.

(** X2.  An id that is on no roster is shown as itself. *)
Theorem nameById_unknown (ps : list Player.t) (k : string) :
  k ∉ Player.id <$> ps → nameById ps k = k.
Proof.
  induction ps as [|p ps IH]; intros Hk; [done|].
  rewrite fmap_cons, not_elem_of_cons in Hk. destruct Hk as [Hne Hk].
  rewrite nameById_cons, decide_False by done. by apply IH.
Qed.

Lemma nameById_unknown_witness :
  ("Z" ∉ Player.id <$> [pA; pB; pC]) ∧ nameById [pA; pB; pC] "Z" = "Z".
Proof.
  assert (H : "Z" ∉ Player.id <$> [pA; pB; pC]).
  { apply (bool_decide_unpack _). vm_compute. exact I. }
  split; [exact H|]. exact (nameById_unknown [pA; pB; pC] "Z" H).
Defined.

(** X3.  After [renamePlayer id name] a player of the roster is shown under
    the new name, and every other id is shown as before. *)
Theorem nameById_renamePlayer (id name : string) (st : State) :
  (id ∈ Player.id <$> players st → nameById (players (renamePlayer id name st)) id = name)
  ∧ (∀ k, k ≠ id →
       nameById (players (renamePlayer id name st)) k = nameById (players st) k).
Proof.
  unfold renamePlayer. simpl. split.
  - induction (players st) as [|p ps IH]; intros Hin.
    + by apply elem_of_nil in Hin.
    + rewrite fmap_cons, nameById_cons.
      destruct (decide (Player.id p = id)) as [Hp|Hp]; simpl.
      * by rewrite decide_True.
      * rewrite decide_False by done. apply IH.
        rewrite fmap_cons, elem_of_cons in Hin. destruct Hin as [Heq|Hin]; [|done].
        by destruct Hp.
  - intros k Hk. induction (players st) as [|p ps IH]; [done|].
    rewrite fmap_cons, !nameById_cons, IH.
    destruct (decide (Player.id p = id)) as [Hp|Hp]; simpl; [|done].
    rewrite !decide_False by congruence. done.
Qed.

(** ** Which entries of a round the engine reads *)

Lemma fold_num_add_ext (f g : Player.t → number) (l : list Player.t) (a : number) :
  (∀ p, p ∈ l → f p = g p) →
  fold_left (λ s p, num_add s (f p)) l a = fold_left (λ s p, num_add s (g p)) l a.
Proof.
  revert a. induction l as [|p l IH]; intros a H; cbn [fold_left]; [done|].
  rewrite (H p) by (by left). apply IH. intros q Hq. apply H. by right.
Qed.

Lemma sumParticipants_agree (players : list Player.t) (r r' : GameRound.t) :
  GameRound.bankerId r' = GameRound.bankerId r →
  (∀ k, k ∈ Player.id <$> players → k ≠ GameRound.bankerId r →
        GameRound.values r' !! k = GameRound.values r !! k) →
  sumParticipants players r' = sumParticipants players r.
Proof.
  intros Hb Hv. unfold sumParticipants. rewrite Hb.
  apply fold_num_add_ext. intros p [Hp Hin]%list_elem_of_filter.
  rewrite Hv; [done| |done]. apply list_elem_of_fmap. by exists p.
Qed.

Lemma contribution_agree (players : list Player.t) (r r' : GameRound.t) (k : string) :
  GameRound.bankerId r' = GameRound.bankerId r →
  (∀ k, k ∈ Player.id <$> players → k ≠ GameRound.bankerId r →
        GameRound.values r' !! k = GameRound.values r !! k) →
  k ∈ Player.id <$> players →
  contribution players r' k = contribution players r k.
Proof.
  intros Hb Hv Hk. unfold contribution, normalized, finalValues.
  rewrite (sumParticipants_agree players r r') by done. rewrite Hb.
  case_decide; [done|].
  destruct (decide (GameRound.bankerId r = k)) as [->|Hne].
  - by rewrite !lookup_insert_eq.
  - rewrite !lookup_insert_ne by done. by rewrite Hv.
Qed.

Lemma debtsRound_agree (players : list Player.t) (r r' : GameRound.t) (idx : nat) :
  GameRound.bankerId r' = GameRound.bankerId r →
  (∀ k, k ∈ Player.id <$> players → k ≠ GameRound.bankerId r →
        GameRound.values r' !! k = GameRound.values r !! k) →
  debtsRound players [] r' idx = debtsRound players [] r idx.
Proof.
  intros Hb Hv. rewrite !debtsRound_nil, Hb. case_decide; [done|]. f_equal.
  apply list_fmap_ext. intros i p Hp. unfold debtsPlayer. rewrite Hb.
  case_decide as Hpb; [done|]. rewrite Hv; [done| |done].
  apply list_elem_of_fmap. exists p. split; [done|]. by eapply list_elem_of_lookup_2.
Qed.

(** Exchanging one round for another that adds the same to every roster
    player changes no Balance. *)
Lemma totals_exchange (players : list Player.t) (r r' : GameRound.t)
    (rounds1 rounds2 : list GameRound.t) :
  (∀ k, k ∈ Player.id <$> players →
        contribution players r' k = contribution players r k) →
  totals players (rounds1 ++ r' :: rounds2) = totals players (rounds1 ++ r :: rounds2).
Proof.
  intros Hc. rewrite !totals_closed. apply list_fmap_ext. intros i [k v] Hi.
  cbn [fst snd]. do 2 f_equal.
  rewrite !fmap_app, !fmap_cons. do 2 f_equal. apply Hc.
  apply initAcc_keys. apply list_elem_of_fmap. exists (k, v).
  split; [done|]. by eapply list_elem_of_lookup_2.
Qed.

(** X4.  The engine reads a round's [values] only under the ids of the
    roster players other than the round's banker: two rounds with the same
    banker that agree on those entries can be exchanged without changing
    any Balance or DebtItem.  Entries left by removed players, and an entry
    under the banker's own id, are never read. *)
Theorem engine_reads_roster_entries (players : list Player.t) (r r' : GameRound.t)
    (rounds1 rounds2 : list GameRound.t) :
  GameRound.bankerId r' = GameRound.bankerId r →
  (∀ k, k ∈ Player.id <$> players → k ≠ GameRound.bankerId r →
        GameRound.values r' !! k = GameRound.values r !! k) →
  totals players (rounds1 ++ r' :: rounds2) = totals players (rounds1 ++ r :: rounds2)
  ∧ debtsByRound players (rounds1 ++ r' :: rounds2)
    = debtsByRound players (rounds1 ++ r :: rounds2).
Proof.
  intros Hb Hv. split.
  - apply totals_exchange. intros k Hk. by apply contribution_agree.
  - rewrite !debtsByRound_mjoin, !imap_app, !join_app. f_equal. simpl.
    by rewrite (debtsRound_agree players r r').
Qed.

Lemma engine_reads_roster_entries_witness :
  let r' := GameRound.mk "r1" "A"
              (<["A" := ofInt 99]> (<["Z" := NaN]> (GameRound.values round1))) in
  GameRound.bankerId r' = GameRound.bankerId round1
  ∧ (∀ k, k ∈ Player.id <$> [pA; pB; pC] → k ≠ GameRound.bankerId round1 →
          GameRound.values r' !! k = GameRound.values round1 !! k)
  ∧ totals [pA; pB; pC] ([round2] ++ r' :: []) = totals [pA; pB; pC] ([round2] ++ round1 :: [])
  ∧ debtsByRound [pA; pB; pC] ([round2] ++ r' :: [])
    = debtsByRound [pA; pB; pC] ([round2] ++ round1 :: []).
Proof.
  intros r'.
  assert (Hb : GameRound.bankerId r' = GameRound.bankerId round1) by reflexivity.
  assert (Hv : ∀ k, k ∈ Player.id <$> [pA; pB; pC] → k ≠ GameRound.bankerId round1 →
                    GameRound.values r' !! k = GameRound.values round1 !! k).
  { intros k Hk Hne. simpl in Hne. unfold r'. simpl.
    rewrite lookup_insert_ne by done.
    rewrite lookup_insert_ne; [done|].
    intros <-. revert Hk. apply (bool_decide_unpack _). vm_compute. exact I. }
  split; [exact Hb|]. split; [exact Hv|].
  exact (engine_reads_roster_entries [pA; pB; pC] round1 r' [round2] [] Hb Hv).
Defined.

Lemma accumulate_not_NaN (l : list Z) : accumulate l ≠ NaN.
Proof.
  unfold accumulate.
  assert (H : ∀ a, a ≠ NaN → fold_left (λ a z, num_add a (Fin z)) l a ≠ NaN).
  { induction l as [|z l IH]; intros a Ha; [done|]. cbn [fold_left]. apply IH.
    destruct a as [x| | |]; try done. simpl.
    repeat case_decide; try done. unfold round64. by repeat case_decide. }
  by apply H.
Qed.

(** X5.  When the player ids, and the banker ids and entry keys of the
    rounds that count, are of the form that [uid] produces, the Balance
    mapping has exactly the roster ids as keys, each once, whatever the
    rounds hold; on a roster with unique ids the keys are the roster ids
    in roster order; and no Balance is [NaN]: it is finite, or an
    infinity after an overflow. *)
Theorem totals_keys_roster (players : list Player.t) (rounds : list GameRound.t) :
  Forall (λ p, uidLike (Player.id p) = true) players →
  Forall plainRound rounds →
  NoDup (totals players rounds).*1
  ∧ (∀ k, k ∈ (totals players rounds).*1 ↔ k ∈ Player.id <$> players)
  ∧ (NoDup (Player.id <$> players) →
     (totals players rounds).*1 = Player.id <$> players)
  ∧ (∀ k, k ∈ Player.id <$> players → balanceOf (totals players rounds) k ≠ NaN).
Proof.
  intros _ _. split; [apply totals_NoDup|]. split; [|split].
  - intros k. rewrite totals_keys. apply initAcc_keys.
  - intros Hnd. rewrite totals_keys, initAcc_NoDup_ids by done.
    rewrite <- list_fmap_compose. by apply list_fmap_ext.
  - intros k Hk. rewrite balanceOf_totals, decide_True by done.
    apply accumulate_not_NaN.
Qed.

Lemma totals_keys_roster_witness :
  Forall (λ p, uidLike (Player.id p) = true) [pU; pV]
  ∧ Forall plainRound [roundU; roundIdle]
  ∧ NoDup (totals [pU; pV] [roundU; roundIdle]).*1
  ∧ (∀ k, k ∈ (totals [pU; pV] [roundU; roundIdle]).*1 ↔ k ∈ Player.id <$> [pU; pV])
  ∧ (NoDup (Player.id <$> [pU; pV]) →
     (totals [pU; pV] [roundU; roundIdle]).*1 = Player.id <$> [pU; pV])
  ∧ (∀ k, k ∈ Player.id <$> [pU; pV] →
          balanceOf (totals [pU; pV] [roundU; roundIdle]) k ≠ NaN).
Proof.
  assert (H1 : Forall (λ p, uidLike (Player.id p) = true) [pU; pV]).
  { repeat constructor. }
  assert (H2 : Forall plainRound [roundU; roundIdle]).
  { constructor; [|constructor; [by left|constructor]].
    right. split; [reflexivity|].
    apply map_Forall_insert_2; [reflexivity|apply map_Forall_empty]. }
  split; [exact H1|]. split; [exact H2|].
  exact (totals_keys_roster [pU; pV] [roundU; roundIdle] H1 H2).
Defined.

(** ** [addPlayer] and [addRound] *)

Lemma sumParticipants_snoc (players : list Player.t) (p : Player.t) (r : GameRound.t) :
  GameRound.values r !! Player.id p = None →
  sumParticipants (players ++ [p]) r = sumParticipants players r.
Proof.
  intros Hp. unfold sumParticipants. rewrite filter_app, fold_left_app.
  rewrite filter_cons, filter_nil. case_decide; [|done].
  cbn [fold_left]. rewrite Hp. apply num_add_0_r.
Qed.

Lemma finalSettlement_zero_entry (balances : list (string * number)) (k : string) :
  finalSettlement (balances ++ [(k, Fin 0)]) = finalSettlement balances.
Proof.
  unfold finalSettlement, debtorsOf, creditorsOf.
  rewrite !filter_app, !filter_cons, !filter_nil. cbn [snd num_neg0 num_pos].
  rewrite !bool_decide_eq_false_2 by lia.
  rewrite !decide_False by done. by rewrite !app_nil_r.
Qed.

(** X6.  A player added under an id that no round mentions starts with
    Balance 0 at the end of the mapping, and changes no other Balance, no
    DebtItem and no Settlement Transaction. *)
Theorem addPlayer_outputs (newId : string) (st : State) :
  newId ∉ Player.id <$> players st →
  (∀ r, r ∈ rounds st →
        GameRound.bankerId r ≠ newId ∧ GameRound.values r !! newId = None) →
  stTotals (addPlayer newId st) = stTotals st ++ [(newId, Fin 0)]
  ∧ stDebts (addPlayer newId st) = stDebts st
  ∧ stSettlement (addPlayer newId st) = stSettlement st.
Proof.
  intros Hnew Hrounds. unfold stSettlement, stTotals, stDebts, addPlayer. simpl.
  set (p := Player.mk newId _).
  assert (Ht : totals (players st ++ [p]) (rounds st)
               = totals (players st) (rounds st) ++ [(newId, Fin 0)]).
  { rewrite !totals_closed. unfold initAcc at 1. rewrite fold_left_app. simpl.
    fold (initAcc (players st)).
    rewrite obj_set_keys_new by (by rewrite initAcc_keys).
    rewrite fmap_app. f_equal.
    - apply list_fmap_ext. intros i [k v] Hk. cbn [fst snd]. do 2 f_equal.
      apply list_fmap_ext. intros j r Hr.
      destruct (Hrounds r) as [Hb Hv]; [by eapply list_elem_of_lookup_2|].
      unfold contribution, normalized, finalValues.
      by rewrite sumParticipants_snoc.
    - cbn [fmap list_fmap fst snd]. do 2 f_equal. apply accumulate_zero.
      apply Forall_fmap, Forall_forall. intros r Hr. destruct (Hrounds r Hr) as [Hb Hv].
      simpl. unfold contribution, normalized, finalValues. case_decide; [done|].
      by rewrite lookup_insert_ne, Hv. }
  split; [exact Ht|]. split.
  - rewrite !debtsByRound_mjoin. f_equal. apply imap_ext. intros idx r Hr. simpl.
    rewrite !debtsRound_nil. case_decide; [done|].
    rewrite fmap_app, join_app. simpl. rewrite app_nil_r.
    destruct (Hrounds r) as [Hb Hv]; [by eapply list_elem_of_lookup_2|].
    unfold debtsPlayer at 2. simpl. rewrite decide_False by done.
    rewrite Hv. simpl. by rewrite app_nil_r.
  - rewrite Ht. apply finalSettlement_zero_entry.
Qed.

Lemma addPlayer_outputs_witness :
  let st := mkState [pA; pB; pC] [round1; round2] in
  ("D" ∉ Player.id <$> players st)
  ∧ (∀ r, r ∈ rounds st →
          GameRound.bankerId r ≠ "D" ∧ GameRound.values r !! "D" = None)
  ∧ stTotals (addPlayer "D" st) = stTotals st ++ [("D", Fin 0)]
  ∧ stDebts (addPlayer "D" st) = stDebts st
  ∧ stSettlement (addPlayer "D" st) = stSettlement st.
Proof.
  intros st.
  assert (H1 : "D" ∉ Player.id <$> players st).
  { apply (bool_decide_unpack _). vm_compute. exact I. }
  assert (H2 : ∀ r, r ∈ rounds st →
                    GameRound.bankerId r ≠ "D" ∧ GameRound.values r !! "D" = None).
  { intros r Hr. simpl in Hr. rewrite !elem_of_cons, elem_of_nil in Hr.
    destruct Hr as [->|[->|[]]]; (split; [done|reflexivity]). }
  split; [exact H1|]. split; [exact H2|].
  exact (addPlayer_outputs "D" st H1 H2).
Defined.

Lemma sumParticipants_no_values (players : list Player.t) (r : GameRound.t) :
  GameRound.values r = ∅ → sumParticipants players r = Fin 0.
Proof.
  intros Hv. unfold sumParticipants. rewrite Hv.
  induction (filter _ players) as [|p l IH]; [done|].
  cbn [fold_left]. by rewrite lookup_empty.
Qed.

Lemma contribution_no_values (players : list Player.t) (r : GameRound.t) (k : string) :
  GameRound.values r = ∅ → contribution players r k = 0.
Proof.
  intros Hv. unfold contribution, normalized, finalValues.
  rewrite sumParticipants_no_values, Hv by done. case_decide; [done|].
  destruct (decide (GameRound.bankerId r = k)) as [->|Hne].
  - by rewrite lookup_insert_eq.
  - by rewrite lookup_insert_ne, lookup_empty.
Qed.

Lemma debtsRound_no_values (players : list Player.t) (r : GameRound.t) (idx : nat) :
  GameRound.values r = ∅ → debtsRound players [] r idx = [].
Proof.
  intros Hv. rewrite debtsRound_nil. case_decide; [done|].
  induction players as [|p players IH]; [done|].
  rewrite fmap_cons. simpl. rewrite IH, app_nil_r.
  unfold debtsPlayer. rewrite Hv, lookup_empty. simpl. by case_decide.
Qed.

(** X7.  [addRound] appends one round that takes over the banker of the
    round before it (none when it is the first), and the new, still empty
    round changes no Balance, no DebtItem and no Settlement Transaction. *)
Theorem addRound_outputs (newId : string) (st : State) :
  (∃ r, rounds (addRound newId st) = rounds st ++ [r]
        ∧ GameRound.id r = newId
        ∧ GameRound.values r = ∅
        ∧ GameRound.bankerId r
          = default EmptyString (GameRound.bankerId <$> last (rounds st)))
  ∧ players (addRound newId st) = players st
  ∧ stTotals (addRound newId st) = stTotals st
  ∧ stDebts (addRound newId st) = stDebts st
  ∧ stSettlement (addRound newId st) = stSettlement st.
Proof.
  unfold stSettlement, stTotals, stDebts, addRound. simpl.
  set (r := GameRound.mk newId _ ∅).
  assert (Ht : totals (players st) (rounds st ++ [r]) = totals (players st) (rounds st)).
  { unfold totals. rewrite fold_left_app. cbn [fold_left].
    rewrite totalsRound_addAt.
    - apply addAt_zero. intros k _. by apply contribution_no_values.
    - apply (totals_NoDup (players st) (rounds st)). }
  split; [|split; [done|split; [exact Ht|split; [|by rewrite Ht]]]].
  - exists r. split; [done|]. split; [done|]. split; [done|]. unfold r. simpl.
    rewrite last_lookup. destruct (rounds st) as [|r0 rs]; [done|].
    rewrite decide_True by (simpl; lia).
    by replace (length (r0 :: rs) - 1)%nat with (pred (length (r0 :: rs))) by lia.
  - rewrite !debtsByRound_mjoin, imap_app, join_app. simpl.
    by rewrite debtsRound_no_values, !app_nil_r.
Qed.

(** ** [removeRound] *)

(** X8.  Removing the round that [addRound] has just added, under an id
    no other round has, gives back the state as it was. *)
Theorem removeRound_addRound (newId : string) (st : State) :
  (∀ r, r ∈ rounds st → GameRound.id r ≠ newId) →
  removeRound newId (addRound newId st) = st.
Proof.
  intros Hfresh. unfold removeRound, addRound. simpl.
  rewrite filter_app, filter_cons, filter_nil. simpl.
  rewrite decide_False by tauto. rewrite app_nil_r, filter_all by done.
  by destruct st.
Qed.

Lemma removeRound_addRound_witness :
  let st := mkState [pA; pB; pC] [round1; round2] in
  (∀ r, r ∈ rounds st → GameRound.id r ≠ "r9")
  ∧ removeRound "r9" (addRound "r9" st) = st.
Proof.
  intros st.
  assert (H : ∀ r, r ∈ rounds st → GameRound.id r ≠ "r9").
  { intros r Hr. simpl in Hr. rewrite !elem_of_cons, elem_of_nil in Hr.
    destruct Hr as [->|[->|[]]]; done. }
  split; [exact H|]. exact (removeRound_addRound "r9" st H).
Defined.

(** X9.  [removeRound] and [removePlayer] commute: a round and a player
    can be deleted in either order. *)
Theorem removeRound_removePlayer (roundId id : string) (st : State) :
  removeRound roundId (removePlayer id st) = removePlayer id (removeRound roundId st).
Proof.
  unfold removeRound, removePlayer. simpl. f_equal.
  induction (rounds st) as [|r rs IH]; [done|].
  rewrite fmap_cons, !filter_cons. simpl.
  case_decide; [rewrite fmap_cons|]; by rewrite IH.
Qed.

(** X10.  [removePlayer] is idempotent, and removing an id that is on no
    roster, is no round's banker and has no entry in any round leaves the
    state as it is. *)
Theorem removePlayer_again (id : string) (st : State) :
  removePlayer id (removePlayer id st) = removePlayer id st
  ∧ (id ∉ Player.id <$> players st →
     (∀ r, r ∈ rounds st →
           GameRound.bankerId r ≠ id ∧ GameRound.values r !! id = None) →
     removePlayer id st = st).
Proof.
  split.
  - unfold removePlayer. simpl. f_equal.
    + apply filter_all. by intros p [Hp _]%list_elem_of_filter.
    + rewrite <- list_fmap_compose. apply list_fmap_ext. intros i r _.
      unfold removeFromRound. simpl. f_equal.
      * repeat case_decide; congruence.
      * by rewrite delete_delete_eq.
  - intros Hid Hrounds. destruct st as [ps rs]. unfold removePlayer. simpl in *.
    f_equal.
    + apply filter_all. intros p Hp Heq. apply Hid.
      apply list_elem_of_fmap. by exists p.
    + rewrite <- (list_fmap_id rs) at 2. apply list_fmap_ext.
      intros i r Hr. destruct (Hrounds r) as [Hb Hv]; [by eapply list_elem_of_lookup_2|].
      destruct r as [rid b vs]. unfold removeFromRound. simpl in *.
      rewrite decide_False by done. f_equal. by apply delete_id.
Qed.


(** ** [updateRoundValue] *)

Lemma find_round_none (rs : list GameRound.t) (roundId : string) :
  (∀ r, r ∈ rs → GameRound.id r ≠ roundId) →
  find (λ r, bool_decide (GameRound.id r = roundId)) rs = None.
Proof.
  induction rs as [|r rs IH]; intros H; [done|]. simpl.
  rewrite bool_decide_eq_false_2 by (apply H; by left).
  apply IH. intros r' Hr'. apply H. by right.
Qed.

Lemma find_round_split (rs1 rs2 : list GameRound.t) (r : GameRound.t) :
  NoDup (GameRound.id <$> rs1 ++ r :: rs2) →
  find (λ r', bool_decide (GameRound.id r' = GameRound.id r)) (rs1 ++ r :: rs2) = Some r
  ∧ (∀ r', r' ∈ rs1 ++ rs2 → GameRound.id r' ≠ GameRound.id r).
Proof.
  rewrite fmap_app, fmap_cons, NoDup_app, NoDup_cons.
  intros (_ & Hdisj & Hr & _).
  assert (Hother : ∀ r', r' ∈ rs1 ++ rs2 → GameRound.id r' ≠ GameRound.id r).
  { intros r' [Hin|Hin]%elem_of_app Heq.
    - apply (Hdisj (GameRound.id r')); [apply list_elem_of_fmap; by exists r'|].
      rewrite Heq. by left.
    - apply Hr. rewrite <- Heq. apply list_elem_of_fmap. by exists r'. }
  split; [|exact Hother].
  induction rs1 as [|r1 rs1 IH]; simpl.
  - by rewrite bool_decide_eq_true_2.
  - rewrite bool_decide_eq_false_2.
    + apply IH.
      * intros k Hk. apply Hdisj. rewrite fmap_cons. by right.
      * intros r' Hr'. apply Hother. simpl. by right.
    + apply Hother. simpl. by left.
Qed.

Lemma updateRound_split (roundId : string) (d : PartialRound.t) (ps : list Player.t)
    (rs1 rs2 : list GameRound.t) (r : GameRound.t) :
  GameRound.id r = roundId →
  (∀ r', r' ∈ rs1 ++ rs2 → GameRound.id r' ≠ roundId) →
  updateRound roundId d (mkState ps (rs1 ++ r :: rs2))
  = mkState ps (rs1 ++ mergeRound r d :: rs2).
Proof.
  intros Hr Hother. unfold updateRound. simpl. f_equal.
  rewrite fmap_app, fmap_cons, decide_True by done. f_equal; [|f_equal].
  - rewrite <- (list_fmap_id rs1) at 2. apply list_fmap_ext. intros i r' Hi.
    rewrite decide_False; [done|]. apply Hother, elem_of_app. left.
    by eapply list_elem_of_lookup_2.
  - rewrite <- (list_fmap_id rs2) at 2. apply list_fmap_ext. intros i r' Hi.
    rewrite decide_False; [done|]. apply Hother, elem_of_app. right.
    by eapply list_elem_of_lookup_2.
Qed.

(** X11.  [updateRoundValue] refuses two edits and then leaves the state
    as it is: one that names no existing round, and, when round ids are
    unique, one that would give the banker of the round a value. *)
Theorem updateRoundValue_refused (roundId playerId : string) (value : option number)
    (st : State) :
  ((∀ r, r ∈ rounds st → GameRound.id r ≠ roundId) →
   updateRoundValue roundId playerId value st = st)
  ∧ (NoDup (GameRound.id <$> rounds st) →
     ∀ r, r ∈ rounds st → GameRound.id r = roundId → GameRound.bankerId r = playerId →
          updateRoundValue roundId playerId value st = st).
Proof.
  unfold updateRoundValue. split.
  - intros Hnone. by rewrite find_round_none.
  - intros Hnd r Hr Hid Hb.
    apply list_elem_of_split in Hr as (rs1 & rs2 & Hsplit).
    rewrite Hsplit in Hnd |- *.
    destruct (find_round_split rs1 rs2 r Hnd) as [Hfind _].
    rewrite <- Hid, Hfind. by rewrite decide_True.
Qed.

(** X12.  With unique round ids, an accepted edit replaces the one round
    of that id by the same round with the entry written (a cleared input,
    [null], is written as 0): afterwards reading the entry gives the
    value, the banker, the other entries and all other rounds are as
    before, in the same order. *)
Theorem updateRoundValue_writes (playerId : string) (value : option number)
    (ps : list Player.t) (rs1 rs2 : list GameRound.t) (r : GameRound.t) :
  NoDup (GameRound.id <$> rs1 ++ r :: rs2) →
  playerId ≠ GameRound.bankerId r →
  ∃ r',
    updateRoundValue (GameRound.id r) playerId value (mkState ps (rs1 ++ r :: rs2))
    = mkState ps (rs1 ++ r' :: rs2)
    ∧ GameRound.id r' = GameRound.id r
    ∧ GameRound.bankerId r' = GameRound.bankerId r
    ∧ GameRound.values r' !! playerId = Some (orZero value)
    ∧ ∀ k, k ≠ playerId → GameRound.values r' !! k = GameRound.values r !! k.
Proof.
  intros Hnd Hp.
  destruct (find_round_split rs1 rs2 r Hnd) as [Hfind Hother].
  exists (GameRound.mk (GameRound.id r) (GameRound.bankerId r)
            (<[playerId := orZero value]> (GameRound.values r))).
  split; [|split; [done|split; [done|split]]].
  - unfold updateRoundValue. simpl. rewrite Hfind, decide_False by done.
    by rewrite (updateRound_split _ _ ps rs1 rs2 r).
  - simpl. apply lookup_insert_eq.
  - intros k Hk. simpl. by rewrite lookup_insert_ne.
Qed.

Lemma rounds_NoDup : NoDup (GameRound.id <$> [round2] ++ round1 :: [roundIdle]).
Proof. apply (bool_decide_unpack _). vm_compute. exact I. Defined.

Lemma updateRoundValue_writes_witness :
  NoDup (GameRound.id <$> [round2] ++ round1 :: [roundIdle])
  ∧ "C" ≠ GameRound.bankerId round1
  ∧ ∃ r',
      updateRoundValue (GameRound.id round1) "C" None
        (mkState [pA; pB; pC] ([round2] ++ round1 :: [roundIdle]))
      = mkState [pA; pB; pC] ([round2] ++ r' :: [roundIdle])
      ∧ GameRound.id r' = GameRound.id round1
      ∧ GameRound.bankerId r' = GameRound.bankerId round1
      ∧ GameRound.values r' !! "C" = Some (orZero None)
      ∧ ∀ k, k ≠ "C" → GameRound.values r' !! k = GameRound.values round1 !! k.
Proof.
  assert (H : "C" ≠ GameRound.bankerId round1) by done.
  split; [exact rounds_NoDup|]. split; [exact H|].
  exact (updateRoundValue_writes "C" None [pA; pB; pC] [round2] [roundIdle] round1
           rounds_NoDup H).
Defined.








(** ** What the settlement never does *)

(** X14.  On balances in the exact range (finite entries on a common
    grid, of at most 2^53 grid steps each), also when they do not add up
    to 0, the transactions of [finalSettlement] move in total the smaller
    of the two sides: the sum of all debts or the sum of all credits. *)
Theorem finalSettlement_volume (k : Z) (balances : list (string * number)) :
  exactBalances k balances = true →
  ∃ settlement,
    finalSettlement balances = Some settlement
    ∧ settled settlement
      = Z.min (zsum ((λ e, Z.max 0 (- finiteOrZero e.2)) <$> balances))
              (zsum ((λ e, Z.max 0 (finiteOrZero e.2)) <$> balances)).
Proof.
  intros Hbal.
  assert (Hk : gridStep k) by (apply exactBalances_spec in Hbal; tauto).
  destruct (finalSettlement_Settles balances (exactBalances_finite k _ Hbal))
    as (new & Hfs & Hrun).
  eexists. split; [exact Hfs|].
  rewrite (settled_perm _ new) by apply array_sort_perm.
  rewrite <- total_debtorsOf, <- total_creditorsOf.
  apply (Settles_bounds k Hk _ _ _ Hrun);
    [by apply exactBalances_debtors|by apply exactBalances_creditors].
Qed.

Lemma finalSettlement_volume_witness :
  let balances := [("A", ofInt (-30)); ("B", ofInt 50); ("C", ofInt (-10))] in
  exactBalances 1074 balances = true
  ∧ ∃ settlement,
      finalSettlement balances = Some settlement
      ∧ settled settlement
        = Z.min (zsum ((λ e, Z.max 0 (- finiteOrZero e.2)) <$> balances))
                (zsum ((λ e, Z.max 0 (finiteOrZero e.2)) <$> balances)).
Proof.
  intros balances. split; [vm_compute; reflexivity|].
  apply (finalSettlement_volume 1074 balances). vm_compute. reflexivity.
Defined.




(** X16.  Every Settlement Transaction goes from a player with a negative
    Balance to a player with a positive Balance; in particular nobody pays
    themselves, and nobody both pays and receives. *)
Theorem settlement_direction (st : State) (settlement : list Transaction.t)
    (t : Transaction.t) :
  stSettlement st = Some settlement →
  t ∈ settlement →
  num_neg0 (balanceOf (stTotals st) (Transaction.fromId t)) = true
  ∧ num_pos (balanceOf (stTotals st) (Transaction.toId t)) = true
  ∧ Transaction.fromId t ≠ Transaction.toId t.
Proof.
  unfold stSettlement. intros Hfs Ht.
  pose proof (finalSettlement_ids _ _ Hfs) as Hids.
  rewrite Forall_forall in Hids.
  destruct (Hids t Ht) as [(v1 & Hin1 & Hv1) (v2 & Hin2 & Hv2)].
  assert (Hnd : NoDup (stTotals st).*1) by apply totals_NoDup.
  pose proof (obj_get_elem _ _ _ Hnd Hin1) as H1.
  pose proof (obj_get_elem _ _ _ Hnd Hin2) as H2.
  unfold balanceOf. rewrite H1, H2. simpl.
  split; [done|]. split; [done|].
  intros Heq. rewrite Heq, H2 in H1. injection H1 as ->.
  destruct v1; simpl in *; try done.
  apply bool_decide_eq_true in Hv1, Hv2. lia.
Qed.

Lemma settlement_direction_witness :
  let st := mkState [pA; pB; pC] [round1] in
  let t := Transaction.mk "A" "B" (ofInt 30) in
  stSettlement st = Some [t; Transaction.mk "C" "B" (ofInt 20)]
  ∧ t ∈ [t; Transaction.mk "C" "B" (ofInt 20)]
  ∧ num_neg0 (balanceOf (stTotals st) (Transaction.fromId t)) = true
  ∧ num_pos (balanceOf (stTotals st) (Transaction.toId t)) = true
  ∧ Transaction.fromId t ≠ Transaction.toId t.
Proof.
  intros st t.
  assert (H1 : stSettlement st = Some [t; Transaction.mk "C" "B" (ofInt 20)]).
  { vm_compute. reflexivity. }
  assert (H2 : t ∈ [t; Transaction.mk "C" "B" (ofInt 20)]) by (by left).
  split; [exact H1|]. split; [exact H2|].
  exact (settlement_direction st _ t H1 H2).
Defined.

(** ** The debt items *)

(** X17.  Every DebtItem has a finite positive amount, carries the 1-based
    position of a round of the list and that round's non-empty banker, and
    links this banker with a roster player other than the banker. *)
Theorem debtItem_invariants (players : list Player.t) (rounds : list GameRound.t)
    (d : DebtItem.t) :
  d ∈ debtsByRound players rounds →
  (∃ z, DebtItem.amount d = Fin z ∧ 0 < z)
  ∧ DebtItem.bankerId d ≠ EmptyString
  ∧ DebtItem.fromId d ≠ DebtItem.toId d
  ∧ (∃ round, rounds !! (DebtItem.roundIndex d - 1)%nat = Some round
              ∧ (1 ≤ DebtItem.roundIndex d ≤ length rounds)%nat
              ∧ GameRound.bankerId round = DebtItem.bankerId d)
  ∧ (DebtItem.fromId d = DebtItem.bankerId d ∧ DebtItem.toId d ∈ Player.id <$> players
     ∨ DebtItem.toId d = DebtItem.bankerId d ∧ DebtItem.fromId d ∈ Player.id <$> players).
Proof.
  intros (idx & round & p & Hround & Hp & Hset & Hd)%debtsByRound_ids.
  destruct (debtsPlayer_ids _ _ _ _ Hd) as (Hidx & Hb & Hne & Hdir & Hpos).
  assert (Hin : Player.id p ∈ Player.id <$> players).
  { apply list_elem_of_fmap. by exists p. }
  split; [done|]. split; [by rewrite Hb|]. split.
  { destruct Hdir as [[-> ->]|[-> ->]]; congruence. }
  split.
  - exists round. rewrite Hidx.
    replace (idx + 1 - 1)%nat with idx by lia.
    apply lookup_lt_Some in Hround as Hlt. split; [done|]. split; [lia|done].
  - rewrite Hb. destruct Hdir as [[-> ->]|[-> ->]]; [by left|by right].
Qed.

Lemma debtItem_invariants_witness :
  let d := DebtItem.mk 1 "A" "C" "A" (ofInt 20) in
  d ∈ debtsByRound [pA; pB; pC] [round1]
  ∧ (∃ z, DebtItem.amount d = Fin z ∧ 0 < z)
  ∧ DebtItem.bankerId d ≠ EmptyString
  ∧ DebtItem.fromId d ≠ DebtItem.toId d
  ∧ (∃ round, [round1] !! (DebtItem.roundIndex d - 1)%nat = Some round
              ∧ (1 ≤ DebtItem.roundIndex d ≤ length [round1])%nat
              ∧ GameRound.bankerId round = DebtItem.bankerId d)
  ∧ (DebtItem.fromId d = DebtItem.bankerId d
       ∧ DebtItem.toId d ∈ Player.id <$> [pA; pB; pC]
     ∨ DebtItem.toId d = DebtItem.bankerId d
       ∧ DebtItem.fromId d ∈ Player.id <$> [pA; pB; pC]).
Proof.
  intros d.
  assert (H : d ∈ debtsByRound [pA; pB; pC] [round1]).
  { rewrite scenario_debts. right. by left. }
  split; [exact H|]. exact (debtItem_invariants [pA; pB; pC] [round1] d H).
Defined.

(** ** The ledger of debt items against the balances *)







(** ** The display orders *)

Lemma balanceOf_not_NaN (balances : list (string * number)) (k : string) :
  Forall (λ e, e.2 ≠ NaN) balances → balanceOf balances k ≠ NaN.
Proof.
  intros Hall. unfold balanceOf. destruct (obj_get k balances) as [v|] eqn:Hget; [|done].
  apply obj_get_Some_elem in Hget. rewrite Forall_forall in Hall.
  apply (Hall _ Hget).
Qed.

Lemma totals_not_NaN (players : list Player.t) (rounds : list GameRound.t) :
  Forall (λ e, e.2 ≠ NaN) (totals players rounds).
Proof.
  rewrite totals_closed. apply Forall_fmap, Forall_forall. intros e _.
  apply accumulate_not_NaN.
Qed.

(** X19.  [ranking] holds one entry per roster player, carrying the
    player's Balance (0 for an id the mapping does not have), and lists
    them by descending total when no Balance is [NaN]; the balances that
    [totals] returns never are. *)
Theorem ranking_sorted (players : list Player.t) (balances : list (string * number)) :
  ranking players balances
    ≡ₚ (λ p, Rank.mk (Player.id p) (balanceOf balances (Player.id p))) <$> players
  ∧ (Forall (λ e, e.2 ≠ NaN) balances →
     StronglySorted (λ a b, num_le (Rank.total b) (Rank.total a))
       (ranking players balances))
  ∧ (∀ rounds,
       StronglySorted (λ a b, num_le (Rank.total b) (Rank.total a))
         (ranking players (totals players rounds))).
Proof.
  assert (Hsorted : ∀ b, Forall (λ e, e.2 ≠ NaN) b →
    StronglySorted (λ a b, num_le (Rank.total b) (Rank.total a)) (ranking players b)).
  { intros b Hb. unfold ranking. apply array_sort_sorted.
    { intros x y z Hxy Hyz. by eapply num_le_trans. }
    intros x y (px & -> & _)%list_elem_of_fmap (py & -> & _)%list_elem_of_fmap.
    unfold byTotalDesc. cbn [Rank.total].
    apply (num_sub_le (balanceOf b (Player.id py)) (balanceOf b (Player.id px)));
      by apply balanceOf_not_NaN. }
  split; [apply array_sort_perm|]. split; [apply Hsorted|].
  intros rounds. apply Hsorted, totals_not_NaN.
Qed.

Lemma num_abs_not_NaN (v : number) : v ≠ NaN → num_abs v ≠ NaN.
Proof. by destruct v. Qed.

(** X20.  [settlementByPerson] holds one entry per roster player and lists
    them by descending absolute net amount, when no net amount is [NaN]. *)
Theorem settlementByPerson_sorted (players : list Player.t)
    (settlement : list Transaction.t) :
  settlementByPerson players settlement ≡ₚ personOf settlement <$> players
  ∧ (Forall (λ e, PersonSettlement.net e ≠ NaN) (personOf settlement <$> players) →
     StronglySorted
       (λ a b, num_le (num_abs (PersonSettlement.net b)) (num_abs (PersonSettlement.net a)))
       (settlementByPerson players settlement)).
Proof.
  unfold settlementByPerson. split; [apply array_sort_perm|].
  intros Hall. rewrite Forall_forall in Hall. apply array_sort_sorted.
  { intros x y z Hxy Hyz. by eapply num_le_trans. }
  intros x y Hx Hy. unfold byAbsNetDesc.
  apply (num_sub_le (num_abs (PersonSettlement.net y)) (num_abs (PersonSettlement.net x)));
    by apply num_abs_not_NaN, Hall.
Qed.

(** ** [resetGame] *)

Lemma finalSettlement_all_zero (balances : list (string * number)) :
  Forall (λ e, e.2 = Fin 0) balances → finalSettlement balances = Some [].
Proof.
  intros Hz. rewrite Forall_forall in Hz.
  unfold finalSettlement. cbv zeta. rewrite settleLoop_rest, !drop_0.
  assert (Hd : debtorsOf balances = []).
  { unfold debtorsOf. rewrite (filter_none (λ e, num_neg0 e.2 = true)); [done|].
    intros e He. by rewrite (Hz e He). }
  rewrite Hd. simpl. by destruct (length (creditorsOf balances)).
Qed.

(** X21.  [resetGame] keeps the roster and clears the game: afterwards
    every roster player has Balance 0, there is no DebtItem and the
    settlement is the empty list. *)
Theorem resetGame_outputs (st : State) :
  players (resetGame st) = players st
  ∧ (∀ k, balanceOf (stTotals (resetGame st)) k = Fin 0)
  ∧ (stTotals (resetGame st)).*1 = (stTotals st).*1
  ∧ stDebts (resetGame st) = []
  ∧ stSettlement (resetGame st) = Some [].
Proof.
  unfold stSettlement, stTotals, stDebts, resetGame. simpl.
  split; [done|]. split; [|split; [by rewrite !totals_keys|split; [done|]]].
  - intros k. rewrite balanceOf_totals. by case_decide.
  - apply finalSettlement_all_zero. apply initAcc_zero.
Qed.

(** ** The history sheet of [exportExcel] *)









(** ** [getMoneyClass] *)

Lemma getMoneyClass_recorded (round : GameRound.t) (k : string) :
  isFinite (orZero (GameRound.values round !! k)) = true →
  getMoneyClass (GameRound.values round !! k) false
  = if decide (0 < recorded round k) then "cp-input-pos"
    else if decide (recorded round k < 0) then "cp-input-neg"
    else "cp-input-zero".
Proof.
  unfold getMoneyClass, recorded.
  destruct (orZero (GameRound.values round !! k)) as [z| | |]; try done. intros _.
  cbn [num_pos num_neg0 finiteOrZero].
  destruct (decide (0 < z)); [by rewrite bool_decide_eq_true_2|].
  rewrite bool_decide_eq_false_2 by done.
  destruct (decide (z < 0)); [by rewrite bool_decide_eq_true_2|].
  by rewrite bool_decide_eq_false_2.
Qed.

(** The items of round [idx] that name a player other than the banker are
    that player's own. *)
Lemma debtsByRound_of_player (players : list Player.t) (rounds : list GameRound.t)
    (idx : nat) (round : GameRound.t) (k : string) (d : DebtItem.t) :
  rounds !! idx = Some round →
  k ≠ GameRound.bankerId round →
  d ∈ debtsByRound players rounds →
  DebtItem.roundIndex d = (idx + 1)%nat →
  (DebtItem.toId d = k → 0 < recorded round k)
  ∧ (DebtItem.fromId d = k → recorded round k < 0).
Proof.
  intros Hr Hk (idx' & round' & q & Hr' & Hq & Hset & Hd)%debtsByRound_ids Hidx.
  pose proof (debtsPlayer_ids _ _ _ _ Hd) as (Hidx' & _ & _ & _ & _).
  assert (idx' = idx) as -> by lia.
  rewrite Hr in Hr'. injection Hr' as <-.
  rewrite debtsPlayer_cases in Hd.
  repeat case_decide; rewrite ?elem_of_nil, ?list_elem_of_singleton in Hd; try done;
    subst d; simpl; split; intros Heq; subst; try done; lia.
Qed.

(** X24.  For a roster player other than the banker of a round with a
    banker, whose entry is finite or missing, the colour class of the
    input cell agrees with the ledger [debtsByRound]: the cell is marked
    positive exactly when a DebtItem of that round pays the player,
    negative exactly when a DebtItem of that round has the player pay,
    and neutral exactly when no DebtItem of that round names the
    player. *)
Theorem getMoneyClass_matches_debts (players : list Player.t) (rounds : list GameRound.t)
    (idx : nat) (round : GameRound.t) (p : Player.t) :
  rounds !! idx = Some round →
  GameRound.bankerId round ≠ EmptyString →
  p ∈ players →
  Player.id p ≠ GameRound.bankerId round →
  isFinite (orZero (GameRound.values round !! Player.id p)) = true →
  let class := getMoneyClass (GameRound.values round !! Player.id p) false in
  let inRound d := d ∈ debtsByRound players rounds
                   ∧ DebtItem.roundIndex d = (idx + 1)%nat in
  (class = "cp-input-pos" ↔ ∃ d, inRound d ∧ DebtItem.toId d = Player.id p)
  ∧ (class = "cp-input-neg" ↔ ∃ d, inRound d ∧ DebtItem.fromId d = Player.id p)
  ∧ (class = "cp-input-zero" ↔
     ∀ d, inRound d → DebtItem.toId d ≠ Player.id p ∧ DebtItem.fromId d ≠ Player.id p).
Proof.
  intros Hr Hset Hp Hne Hfin class inRound.
  unfold class. rewrite getMoneyClass_recorded by done.
  assert (Hown : ∀ d, inRound d →
    (DebtItem.toId d = Player.id p → 0 < recorded round (Player.id p))
    ∧ (DebtItem.fromId d = Player.id p → recorded round (Player.id p) < 0)).
  { intros d [Hd Hidx]. by apply (debtsByRound_of_player players rounds idx round). }
  assert (Hemit : ∀ d, d ∈ debtsPlayer idx round [] p → inRound d).
  { intros d Hd. split; [by eapply debtsByRound_round|].
    by apply debtsPlayer_ids in Hd as (? & _). }
  pose proof (debtsPlayer_cases idx round p) as Hcases.
  rewrite decide_False in Hcases by done.
  destruct (decide (0 < recorded round (Player.id p))) as [Hpos|Hpos];
    [|destruct (decide (recorded round (Player.id p) < 0)) as [Hneg|Hneg]].
  - split; [|split]; split; try done.
    + intros _. eexists. split; [apply Hemit; rewrite Hcases; by left|done].
    + intros (d & Hd & Hfrom). apply Hown in Hd as [_ Hd]. specialize (Hd Hfrom). lia.
    + intros Hall. exfalso.
      destruct (Hall _ (Hemit _ ltac:(rewrite Hcases; by left))) as [Hto _].
      by apply Hto.
  - split; [|split]; split; try done.
    + intros (d & Hd & Hto). apply Hown in Hd as [Hd _]. specialize (Hd Hto). lia.
    + intros _. eexists. split; [apply Hemit; rewrite Hcases; by left|done].
    + intros Hall. exfalso.
      destruct (Hall _ (Hemit _ ltac:(rewrite Hcases; by left))) as [_ Hfrom].
      by apply Hfrom.
  - split; [|split]; split; try done.
    + intros (d & Hd & Hto). apply Hown in Hd as [Hd _]. specialize (Hd Hto). lia.
    + intros (d & Hd & Hfrom). apply Hown in Hd as [_ Hd]. specialize (Hd Hfrom). lia.
    + intros _ d Hd. apply Hown in Hd as [H1 H2]. split; intros Heq.
      * specialize (H1 Heq). lia.
      * specialize (H2 Heq). lia.
Qed.

Lemma getMoneyClass_matches_debts_witness :
  let players := [pA; pB; pC] in
  let rounds := [roundIdle; round1] in
  let class := getMoneyClass (GameRound.values round1 !! Player.id pC) false in
  let inRound d := d ∈ debtsByRound players rounds
                   ∧ DebtItem.roundIndex d = (1 + 1)%nat in
  rounds !! 1%nat = Some round1
  ∧ GameRound.bankerId round1 ≠ EmptyString
  ∧ pC ∈ players
  ∧ Player.id pC ≠ GameRound.bankerId round1
  ∧ isFinite (orZero (GameRound.values round1 !! Player.id pC)) = true
  ∧ (class = "cp-input-pos" ↔ ∃ d, inRound d ∧ DebtItem.toId d = Player.id pC)
  ∧ (class = "cp-input-neg" ↔ ∃ d, inRound d ∧ DebtItem.fromId d = Player.id pC)
  ∧ (class = "cp-input-zero" ↔
     ∀ d, inRound d → DebtItem.toId d ≠ Player.id pC ∧ DebtItem.fromId d ≠ Player.id pC).
Proof.
  intros players rounds class inRound.
  assert (H2 : GameRound.bankerId round1 ≠ EmptyString) by done.
  assert (H3 : pC ∈ players) by (right; right; by left).
  assert (H4 : Player.id pC ≠ GameRound.bankerId round1) by done.
  assert (H5 : isFinite (orZero (GameRound.values round1 !! Player.id pC)) = true)
    by reflexivity.
  split; [reflexivity|]. split; [exact H2|]. split; [exact H3|].
  split; [exact H4|]. split; [exact H5|].
  exact (getMoneyClass_matches_debts players rounds 1 round1 pC eq_refl H2 H3 H4 H5).
Defined.
